(** * RedBeat: a shallow embedding of [redbeat/schedulers.py]

    The scheduler keeps its schedule in a Redis server: one hash per entry
    (fields [definition] and [meta]), one sorted set indexing the entries by
    due time, one set naming the statically configured entries and one lock
    key.  Python objects are embedded as values of [pyval], the Redis server
    and the wall clock as a [world] that every operation threads through,
    and Python exceptions as the left summand of every result. *)

From Stdlib Require Import ZArith QArith_base String Ascii.
From stdpp Require Import base option list countable gmap strings sorting.

Close Scope Q_scope.
Set Warnings "-clear-no-such-hyp".

Local Open Scope Z_scope.
Local Open Scope string_scope.

(** ** Python values *)

(** The objects that occur as attributes of an entry and inside the decoded
    [definition] and [meta] records.  [R] is the type of recurrence rules
    (celery's schedule objects).  A [datetime] is naive and counted in
    microseconds from [datetime.min]. *)
#[local] Unset Elimination Schemes.
Inductive pyval (R : Type) : Type :=
  | PNone
  | PBool (b : bool)
  | PInt (n : Z)
  | PStr (s : string)
  | PDatetime (t : Z)
  | PRule (r : R)
  | PList (l : list (pyval R))
  | PDict (kv : list (string * pyval R)).

#[local] Set Elimination Schemes.

Arguments PNone {R}.
Arguments PBool {R} b.
Arguments PInt {R} n.
Arguments PStr {R} s.
Arguments PDatetime {R} t.
Arguments PRule {R} r.
Arguments PList {R} l.
Arguments PDict {R} kv.

(** Induction through the nested lists. *)
Lemma pyval_ind {R} (P : pyval R → Prop) :
  P PNone → (∀ b, P (PBool b)) → (∀ n, P (PInt n)) → (∀ s, P (PStr s)) →
  (∀ t, P (PDatetime t)) → (∀ r, P (PRule r)) →
  (∀ l, Forall P l → P (PList l)) →
  (∀ kv, Forall (λ p, P p.2) kv → P (PDict kv)) →
  ∀ v, P v.
Proof.
  intros HN HB HI HS HD HR HL HK.
  fix IH 1.
  intros [ | b | n | s | t | r | l | kv];
    [exact HN | apply HB | apply HI | apply HS | apply HD | apply HR | | ].
  - apply HL. induction l as [ | v l IHl]; constructor; [apply IH | exact IHl].
  - apply HK.
    induction kv as [ | [k v] kv IHkv]; constructor; [apply IH | exact IHkv].
Qed.

(** Python values are countable through stdpp's generic trees; this gives
    them decidable equality (Python's [==] on these values) and makes the
    hashable ones usable as dict keys. *)
Section pyval_countable.
Context {R : Type} `{Countable R}.

Definition leaf : Type := Z + string + R.

Definition to_pairs (f : pyval R → gen_tree leaf) :
    list (string * pyval R) → list (gen_tree leaf) :=
  fix go kv :=
    match kv with
    | [] => []
    | (k, v) :: kv' => GenLeaf (inl (inr k)) :: f v :: go kv'
    end.

Fixpoint to_tree (v : pyval R) : gen_tree leaf :=
  match v with
  | PNone => GenNode 0 []
  | PBool b => GenNode 1 [GenLeaf (inl (inl (if b then 1 else 0)))]
  | PInt n => GenNode 2 [GenLeaf (inl (inl n))]
  | PStr s => GenNode 3 [GenLeaf (inl (inr s))]
  | PDatetime t => GenNode 4 [GenLeaf (inl (inl t))]
  | PRule r => GenNode 5 [GenLeaf (inr r)]
  | PList l => GenNode 6 (map to_tree l)
  | PDict kv => GenNode 7 (to_pairs to_tree kv)
  end.

Definition of_items (f : gen_tree leaf → option (pyval R)) :
    list (gen_tree leaf) → option (list (pyval R)) :=
  fix go ts :=
    match ts with
    | [] => Some []
    | t :: ts' =>
        match f t, go ts' with
        | Some v, Some vs => Some (v :: vs)
        | _, _ => None
        end
    end.

Definition of_pairs (f : gen_tree leaf → option (pyval R)) :
    list (gen_tree leaf) → option (list (string * pyval R)) :=
  fix go ts :=
    match ts with
    | [] => Some []
    | GenLeaf (inl (inr k)) :: t :: ts' =>
        match f t, go ts' with
        | Some v, Some kvs => Some ((k, v) :: kvs)
        | _, _ => None
        end
    | _ => None
    end.

Fixpoint of_tree (t : gen_tree leaf) : option (pyval R) :=
  match t with
  | GenNode 0 [] => Some PNone
  | GenNode 1 [GenLeaf (inl (inl n))] => Some (PBool (bool_decide (n = 1)))
  | GenNode 2 [GenLeaf (inl (inl n))] => Some (PInt n)
  | GenNode 3 [GenLeaf (inl (inr s))] => Some (PStr s)
  | GenNode 4 [GenLeaf (inl (inl n))] => Some (PDatetime n)
  | GenNode 5 [GenLeaf (inr r)] => Some (PRule r)
  | GenNode 6 ts => PList <$> of_items of_tree ts
  | GenNode 7 ts => PDict <$> of_pairs of_tree ts
  | _ => None
  end.

Lemma of_items_map f g (l : list (pyval R)) :
  Forall (λ v, f (g v) = Some v) l → of_items f (map g l) = Some l.
Proof.
  induction 1 as [ | v l Hv _ IHl]; [reflexivity | ].
  cbn. by rewrite Hv, IHl.
Qed.

Lemma of_pairs_to_pairs f g (kv : list (string * pyval R)) :
  Forall (λ p, f (g p.2) = Some p.2) kv →
  of_pairs f (to_pairs g kv) = Some kv.
Proof.
  induction 1 as [ | [k v] kv Hv _ IHkv]; [reflexivity | ].
  cbn in *. by rewrite Hv, IHkv.
Qed.

Lemma of_to_tree (v : pyval R) : of_tree (to_tree v) = Some v.
Proof.
  induction v as [ | [] | n | s | t | r | l IH | kv IH] using pyval_ind;
    try reflexivity.
  - cbn [to_tree of_tree]. by rewrite of_items_map.
  - cbn [to_tree of_tree]. by rewrite of_pairs_to_pairs.
Qed.

Lemma to_tree_inj (v1 v2 : pyval R) : to_tree v1 = to_tree v2 → v1 = v2.
Proof.
  intros E. apply (inj Some). by rewrite <- !of_to_tree, E.
Qed.

#[global] Instance pyval_eq_dec : EqDecision (pyval R).
Proof.
  refine (λ v1 v2, cast_if (decide (to_tree v1 = to_tree v2)));
    abstract (first [by apply to_tree_inj | congruence]).
Defined.

#[global] Instance pyval_countable : Countable (pyval R) :=
  inj_countable to_tree of_tree of_to_tree.
End pyval_countable.

(** A Python dict with string keys. *)
Abbreviation pydict R := (gmap string (pyval R)).

(** Python truth value, as tested by [if not x] and [x or y]. *)
Definition truthy {R} (v : pyval R) : bool :=
  match v with
  | PNone => false
  | PBool b => b
  | PInt n => negb (Z.eqb n 0)
  | PStr s => negb (String.eqb s "")
  | PDatetime _ => true
  | PRule _ => true
  | PList l => match l with [] => false | _ => true end
  | PDict kv => match kv with [] => false | _ => true end
  end.

(** [x or y] *)
Definition py_or {R} (x y : pyval R) : pyval R := if truthy x then x else y.

(** [datetime.datetime.min] and [datetime.datetime.max], in microseconds
    from the former. *)
Definition datetime_min : Z := 0.
Definition datetime_max : Z := 315537897599999999.

(** ** Exceptions *)

Inductive exn : Type :=
  | KeyError (key : string)
  | NameError (name : string)
  | AttributeError (attr : string)
  | TypeError
  | ValueError
  | OverflowError.

(** ** The Redis server and the clock *)

Record world : Type := World {
  hashes : gmap string (gmap string string);  (* key -> field -> bytes *)
  zsets : gmap string (gmap string Z);         (* key -> member -> score *)
  sets : gmap string (gset string);            (* key -> members *)
  strs : gmap string string;                   (* plain keys: lock tokens *)
  ttl : gmap string Z;                         (* key -> expiry in ms *)
  clock : Z                                    (* the current datetime *)
}.

(** ** Computations: state that survives an exception *)

Definition M (A : Type) : Type := world → world * (exn + A).

Definition ret {A} (a : A) : M A := λ w, (w, inr a).
Definition raise {A} (e : exn) : M A := λ w, (w, inl e).
Definition bind {A B} (c : M A) (k : A → M B) : M B :=
  λ w, match c w with
       | (w', inr a) => k a w'
       | (w', inl e) => (w', inl e)
       end.
(** Lift a pure, fallible computation. *)
Definition lift {A} (r : exn + A) : M A := λ w, (w, r).
(** [try c except KeyError: h] *)
Definition try_KeyError {A} (c : M A) (h : string → M A) : M A :=
  λ w, match c w with
       | (w', inl (KeyError k)) => h k w'
       | r => r
       end.
(** [try c except Exception: h] *)
Definition try_Exception {A} (c : M A) (h : exn → M A) : M A :=
  λ w, match c w with
       | (w', inl e) => h e w'
       | r => r
       end.

Notation "x ← c ; k" := (bind c (λ x, k))
  (at level 20, c at level 100, k at level 200, only parsing, right associativity).
Notation "c ;; k" := (bind c (λ _, k))
  (at level 100, k at level 200, right associativity).

(** [for x in l: body x] *)
Fixpoint for_each {A} (l : list A) (body : A → M unit) : M unit :=
  match l with
  | [] => ret tt
  | x :: l' => body x ;; for_each l' body
  end.

(** The world and the outcome of running [c] from [w]. *)
Definition exec {A} (c : M A) (w : world) : world := (c w).1.
Definition outcome {A} (c : M A) (w : world) : exn + A := (c w).2.

(** ** Redis commands

    The commands of [redis.client.StrictRedis] that the scheduler issues.
    One server is shared by every client the process opens.  Each kind of
    value has its own table; [DEL] removes a key of any kind. *)
Module Redis.

Definition hget (key field : string) : M (option string) :=
  λ w, (w, inr (hashes w !! key ≫= (.!! field))).

Definition hset (key field value : string) : M unit :=
  λ w, (World (<[key := <[field := value]> (default ∅ (hashes w !! key))]>
                 (hashes w))
              (zsets w) (sets w) (strs w) (ttl w) (clock w),
        inr tt).

(** [zadd(name, score, member)]: insert the member or overwrite its score. *)
Definition zadd (key : string) (score : Z) (member : string) : M unit :=
  λ w, (World (hashes w)
              (<[key := <[member := score]> (default ∅ (zsets w !! key))]>
                 (zsets w))
              (sets w) (strs w) (ttl w) (clock w),
        inr tt).

(** [zrem(name, member)]: remove the member if present. *)
Definition zrem (key member : string) : M unit :=
  λ w, (World (hashes w)
              (match zsets w !! key with
               | Some z => <[key := base.delete member z]> (zsets w)
               | None => zsets w
               end)
              (sets w) (strs w) (ttl w) (clock w),
        inr tt).

(** Redis orders a sorted set by score and, among equal scores, by
    member. *)
Definition zle (x y : string * Z) : Prop :=
  (x.2 < y.2)%Z ∨ (x.2 = y.2 ∧ String.leb x.1 y.1 = true).

#[global] Instance zle_dec : RelDecision zle.
Proof. intros x y. unfold zle. apply _. Defined.

(** [zrangebyscore(name, min, max)]: the members with
    [min <= score <= max], in ascending order. *)
Definition zrangebyscore (key : string) (min max : Z) : M (list string) :=
  λ w, (w,
        inr ((merge_sort zle
                (filter (λ p, (min ≤ p.2 ∧ p.2 ≤ max)%Z)
                   (map_to_list (default ∅ (zsets w !! key))))).*1)).

Definition smembers (key : string) : M (gset string) :=
  λ w, (w, inr (default ∅ (sets w !! key))).

Definition sadd (key : string) (members : list string) : M unit :=
  λ w, (World (hashes w) (zsets w)
              (<[key := list_to_set members ∪ default ∅ (sets w !! key)]>
                 (sets w))
              (strs w) (ttl w) (clock w),
        inr tt).

Definition exists_ (key : string) (w : world) : bool :=
  bool_decide (is_Some (hashes w !! key) ∨ is_Some (zsets w !! key) ∨
               is_Some (sets w !! key) ∨ is_Some (strs w !! key)).

(** [pexpire(name, ms)]: set the time to live of an existing key. *)
Definition pexpire (key : string) (ms : Z) : M unit :=
  λ w, (if exists_ key w
        then World (hashes w) (zsets w) (sets w) (strs w)
                   (<[key := ms]> (ttl w)) (clock w)
        else w,
        inr tt).

(** [delete(name)] *)
Definition delete (key : string) : M unit :=
  λ w, (World (base.delete key (hashes w)) (base.delete key (zsets w))
              (base.delete key (sets w)) (base.delete key (strs w))
              (base.delete key (ttl w)) (clock w),
        inr tt).

End Redis.

(** ** The collaborators of the module *)

(** A recurrence rule (a celery schedule object).  [remaining_estimate r
    now last_run_at] is the timedelta, in microseconds, that
    [r.remaining_estimate(last_run_at)] returns when the clock reads [now];
    [rule_is_due r now last_run_at] is what [r.is_due(last_run_at)]
    returns: whether the rule is due and the delay, in seconds, until the
    next check. *)
Class RecurrenceRule (R : Type) : Type := {
  remaining_estimate : R → Z → Z → Z;
  rule_is_due : R → Z → Z → bool * Q
}.

(** Modelled from the spec: the [RedBeatJSONEncoder] and
    [RedBeatJSONDecoder] of the [decoder] module, which this file imports
    and which is not part of the sources at hand.  The definition and the
    meta record are each encoded as one structured record; the wire form is
    left open as long as decoding an encoded record gives the record back.
    [loads] returns [None] where [json.loads] raises on bytes that are not
    an encoded record.  An encoded record is never the empty string (a JSON
    object starts with a brace). *)
Class Codec (R : Type) : Type := {
  dumps : pydict R → string;
  loads : string → option (pydict R);
  loads_dumps : ∀ d, loads (dumps d) = Some d;
  dumps_nonempty : ∀ d, dumps d ≠ ""
}.

(** The configuration of a celery application, with the defaults of
    [add_defaults] filled in. *)
Record Conf (R : Type) : Type := {
  REDBEAT_KEY_PREFIX : string;
  REDBEAT_SCHEDULE_KEY : string;
  REDBEAT_STATICS_KEY : string;
  REDBEAT_LOCK_KEY : string;
  REDBEAT_LOCK_TIMEOUT : Z;
  CELERYBEAT_SCHEDULE : gmap string (pydict R);
  CELERYBEAT_MAX_LOOP_INTERVAL : Z
}.
Arguments REDBEAT_KEY_PREFIX {R} _.
Arguments REDBEAT_SCHEDULE_KEY {R} _.
Arguments REDBEAT_STATICS_KEY {R} _.
Arguments REDBEAT_LOCK_KEY {R} _.
Arguments REDBEAT_LOCK_TIMEOUT {R} _.
Arguments CELERYBEAT_SCHEDULE {R} _.
Arguments CELERYBEAT_MAX_LOOP_INTERVAL {R} _.

Record App (R : Type) : Type := { conf : Conf R }.
Arguments conf {R} _.

(** What the process provides: the platform's [time.mktime], from the
    seconds of a local broken-down time to seconds since the epoch, and the
    application that [app_or_default(None)] returns. *)
Class Runtime (R : Type) : Type := {
  mktime : Z → Z;
  default_app : App R
}.

Definition app_or_default {R} `{!Runtime R} (app : option (App R)) : App R :=
  default default_app app.

(** [to_timestamp(dt)]: [dt.timetuple()] drops the microseconds. *)
Definition to_timestamp {R} `{!Runtime R} (dt : Z) : Z :=
  mktime (dt `div` 1000000).

(** [dt + delta]; a result outside [datetime.min .. datetime.max] raises. *)
Definition datetime_add (dt delta : Z) : exn + Z :=
  if bool_decide (datetime_min ≤ dt + delta ≤ datetime_max)%Z
  then inr (dt + delta) else inl OverflowError.

(** The names bound to strings at module level.  A name that is neither
    bound here nor local raises [NameError] when it is read. *)
Definition module_strings : gmap string string :=
  {[ "__name__" := "redbeat.schedulers";
     "ADD_ENTRY_ERROR" := "
Couldn't add entry %r to redis schedule: %r. Contents: %r
" ]}.

Definition global_string (name : string) : M string :=
  match module_strings !! name with
  | Some s => ret s
  | None => raise (NameError name)
  end.

(** ** [class RedBeatSchedulerEntry(ScheduleEntry)] *)
Module RedBeatSchedulerEntry.
Section entry.
Context {R : Type} `{!RecurrenceRule R} `{!Codec R} `{!Runtime R}.

(** The attributes of an entry object.  [app] is the [app] keyword of the
    constructor, which the base class stores as it is and which is [None]
    when the caller passes none. *)
Record t : Type := Entry {
  name : pyval R;
  task : pyval R;
  schedule : pyval R;
  args : pyval R;
  kwargs : pyval R;
  options : pyval R;
  enabled : pyval R;
  last_run_at : pyval R;
  total_run_count : pyval R;
  app : option (App R)
}.

(** The keywords that [__init__] and the [__init__] of celery's
    [ScheduleEntry] take from a record. *)
Definition init_keywords : gset string :=
  {[ "name"; "task"; "schedule"; "args"; "kwargs"; "enabled"; "options";
     "last_run_at"; "total_run_count" ]}.

(** [ScheduleEntry._default_now()] reads the clock. *)
Definition _default_now : M (pyval R) := λ w, (w, inr (PDatetime (clock w))).

(** The attributes that the constructor sets from the keywords [kw], from
    [app] when one is given, and from [now], the value of
    [self._default_now()].  The base class stores the attributes as
    passed, with [last_run_at or self._default_now()] and
    [total_run_count or 0]; an absent keyword takes its default. *)
Definition construct (kw : pydict R) (app : option (App R)) (now : pyval R) :
    t :=
  {| name := default PNone (kw !! "name");
     task := default PNone (kw !! "task");
     schedule := default PNone (kw !! "schedule");
     args := default PNone (kw !! "args");
     kwargs := default PNone (kw !! "kwargs");
     options := default (PDict []) (kw !! "options");
     enabled := default (PBool true) (kw !! "enabled");
     last_run_at := py_or (default PNone (kw !! "last_run_at")) now;
     total_run_count :=
       py_or (default PNone (kw !! "total_run_count")) (PInt 0);
     app := app |}.

(** The constructor called with the keywords [kw]; a keyword that no
    parameter matches is a [TypeError]. *)
Definition init (kw : pydict R) (app : option (App R)) : M t :=
  if bool_decide (dom kw ⊆ init_keywords) then
    now ← _default_now;
    ret (construct kw app now)
  else raise TypeError.

(** [load_definition(key)] *)
Definition load_definition (key : string) : M (pydict R) :=
  definition ← Redis.hget key "definition";
  match definition with
  | None | Some "" => raise (KeyError key)
  | Some bytes => lift (from_option inr (inl ValueError) (loads bytes))
  end.

(** [load_meta(key)] *)
Definition load_meta (key : string) : M (pydict R) :=
  meta ← Redis.hget key "meta";
  match meta with
  | None | Some "" => ret {[ "last_run_at" := PDatetime datetime_min ]}
  | Some bytes => lift (from_option inr (inl ValueError) (loads bytes))
  end.

(** [from_key(key)]: [definition.update(meta)] lets the keys of [meta]
    win. *)
Definition from_key (key : string) : M t :=
  definition ← load_definition key;
  meta ← load_meta key;
  init (meta ∪ definition) None.

(** [self.app.conf]: fails on an entry without an application. *)
Definition app_conf (self : t) : M (Conf R) :=
  match app self with
  | Some a => ret (conf a)
  | None => raise (AttributeError "conf")
  end.

(** Property [due_at]. *)
Definition due_at (self : t) : M Z :=
  match schedule self with
  | PRule r =>
      match last_run_at self with
      | PDatetime last =>
          λ w, (w, datetime_add last (remaining_estimate r (clock w) last))
      | _ => raise TypeError
      end
  | _ => raise (AttributeError "remaining_estimate")
  end.

(** Property [key]. *)
Definition key (self : t) : M string :=
  match name self with
  | PStr n => ret (REDBEAT_KEY_PREFIX (conf (app_or_default (app self))) ++ n)
  | _ => raise TypeError
  end.

(** Property [score]. *)
Definition score (self : t) : M Z :=
  dt ← due_at self;
  ret (to_timestamp dt).

(** The [definition] dict that [save] builds. *)
Definition definition_of (self : t) : pydict R :=
  {[ "name" := name self;
     "task" := task self;
     "args" := args self;
     "kwargs" := kwargs self;
     "options" := options self;
     "schedule" := schedule self;
     "enabled" := enabled self ]}.

(** [save()] *)
Definition save (self : t) : M unit :=
  let definition := definition_of self in
  k ← key self;
  Redis.hset k "definition" (dumps definition);;
  c ← app_conf self;
  s ← score self;
  k ← key self;
  Redis.zadd (REDBEAT_SCHEDULE_KEY c) s k.

(** [delete()] *)
Definition delete (self : t) : M unit :=
  c ← app_conf self;
  k ← key self;
  Redis.zrem (REDBEAT_SCHEDULE_KEY c) k;;
  k ← key self;
  Redis.delete k.

(** [self.total_run_count += 1] *)
Definition incr (v : pyval R) : exn + pyval R :=
  match v with
  | PInt n => inr (PInt (n + 1))
  | PBool b => inr (PInt ((if b then 1 else 0) + 1))
  | _ => inl TypeError
  end.

(** [next(last_run_at=None)].  The sorted set is named by the global
    [REDBEAT_SCHEDULE_KEY], which is read before the score is computed. *)
Definition next (self : t) (last_run_at' : pyval R) : M t :=
  now ← _default_now;
  let self := Entry (name self) (task self) (schedule self) (args self)
                (kwargs self) (options self) (enabled self)
                (py_or last_run_at' now) (total_run_count self) (app self) in
  count ← lift (incr (total_run_count self));
  let self := Entry (name self) (task self) (schedule self) (args self)
                (kwargs self) (options self) (enabled self)
                (last_run_at self) count (app self) in
  let meta : pydict R :=
    {[ "last_run_at" := last_run_at self;
       "total_run_count" := total_run_count self ]} in
  k ← key self;
  Redis.hset k "meta" (dumps meta);;
  schedule_key ← global_string "REDBEAT_SCHEDULE_KEY";
  s ← score self;
  k ← key self;
  Redis.zadd schedule_key s k;;
  ret self.

(** [reschedule(last_run_at=None)]; the result is the entry as the call
    leaves it. *)
Definition reschedule (self : t) (last_run_at' : pyval R) : M t :=
  now ← _default_now;
  let self := Entry (name self) (task self) (schedule self) (args self)
                (kwargs self) (options self) (enabled self)
                (py_or last_run_at' now) (total_run_count self) (app self) in
  let meta : pydict R :=
    {[ "last_run_at" := last_run_at self ]} in
  k ← key self;
  Redis.hset k "meta" (dumps meta);;
  c ← app_conf self;
  s ← score self;
  k ← key self;
  Redis.zadd (REDBEAT_SCHEDULE_KEY c) s k;;
  ret self.

(** [ScheduleEntry.is_due()] of the base class:
    [self.schedule.is_due(self.last_run_at)]. *)
Definition ScheduleEntry_is_due (self : t) : M (bool * Q) :=
  match schedule self with
  | PRule r =>
      match last_run_at self with
      | PDatetime last => λ w, (w, inr (rule_is_due r (clock w) last))
      | _ => raise TypeError
      end
  | _ => raise (AttributeError "is_due")
  end.

(** [is_due()] *)
Definition is_due (self : t) : M (bool * Q) :=
  if negb (truthy (enabled self)) then ret (false, Qmake 5 1)
  else ScheduleEntry_is_due self.

End entry.
End RedBeatSchedulerEntry.

(** ** [class RedBeatScheduler(Scheduler)] *)
Module RedBeatScheduler.
Section scheduler.
Context {R : Type} `{Countable R}
        `{!RecurrenceRule R} `{!Codec R} `{!Runtime R}.

Abbreviation Entry := (@RedBeatSchedulerEntry.t R).

(** The attributes of a scheduler object.  [lock] is the lock handle
    that [acquire_distributed_beat_lock] stores, [None] before that;
    [lock_timeout] and [max_interval] are in seconds;
    [default_entries] are the entries that the base class installs on
    its own account in [install_default_entries]. *)
Record t : Type := Scheduler {
  app : App R;
  lock : option string;
  lock_key : string;
  lock_timeout : Z;
  max_interval : Z;
  default_entries : gmap string (pydict R)
}.

(** The names that [setup_schedule] finds tracked as static and no longer
    configured. *)
Definition removed (self : t) (previous : gset string) : gset string :=
  previous ∖ dom (CELERYBEAT_SCHEDULE (conf (app self))).

(** [Scheduler._maybe_entry(name, entry)] of the base class, for an
    entry given as a dict: the constructor is called with the keywords of
    the dict, [name=name] and [app=self.app]. *)
Definition _maybe_entry (self : t) (name : string) (entry : pydict R) :
    M Entry :=
  RedBeatSchedulerEntry.init (<["name" := PStr name]> entry) (Some (app self)).

(** [update_from_dict(dict_)] *)
Definition update_from_dict (self : t) (dict_ : gmap string (pydict R)) :
    M unit :=
  for_each (map_to_list dict_) (λ '(name, entry),
    made ← try_Exception (e ← _maybe_entry self name entry; ret (Some e))
                         (λ exc, ret None);
    match made with
    | None => ret tt
    | Some entry => RedBeatSchedulerEntry.save entry
    end).

(** [Scheduler.install_default_entries(data)] of the base class stores
    its entries through [update_from_dict]. *)
Definition install_default_entries (self : t)
    (data : gmap string (pydict R)) : M unit :=
  update_from_dict self (default_entries self).

(** [setup_schedule()] *)
Definition setup_schedule (self : t) : M unit :=
  let c := conf (app self) in
  previous ← Redis.smembers (REDBEAT_STATICS_KEY c);
  for_each (elements (removed self previous)) (λ name,
    entry ← RedBeatSchedulerEntry.init {[ "name" := PStr name ]} None;
    RedBeatSchedulerEntry.delete entry);;
  install_default_entries self (CELERYBEAT_SCHEDULE c);;
  if bool_decide (CELERYBEAT_SCHEDULE c = ∅) then ret tt
  else
    update_from_dict self (CELERYBEAT_SCHEDULE c);;
    Redis.sadd (REDBEAT_STATICS_KEY c)
               (map_to_list (CELERYBEAT_SCHEDULE c)).*1.

(** [reserve(entry)] *)
Definition reserve (self : t) (entry : Entry) : M Entry :=
  RedBeatSchedulerEntry.next entry PNone.

(** Lists and dicts cannot be dict keys. *)
Definition hashable (v : pyval R) : bool :=
  match v with
  | PList _ | PDict _ => false
  | _ => true
  end.

(** The loop of [schedule] over the keys that are due. *)
Fixpoint collect (self : t) (due_tasks : list string)
    (d : gmap (pyval R) Entry) : M (gmap (pyval R) Entry) :=
  match due_tasks with
  | [] => ret d
  | key :: rest =>
      loaded ← try_KeyError
                 (entry ← RedBeatSchedulerEntry.from_key key;
                  ret (Some entry))
                 (λ _,
                  Redis.zrem (REDBEAT_SCHEDULE_KEY (conf (app self))) key;;
                  ret None);
      match loaded with
      | None => collect self rest d
      | Some entry =>
          if hashable (RedBeatSchedulerEntry.name entry)
          then collect self rest
                 (<[RedBeatSchedulerEntry.name entry := entry]> d)
          else raise TypeError
      end
  end.

(** The instant up to which [schedule] looks:
    [to_timestamp(self.app.now() + timedelta(seconds=self.max_interval))]. *)
Definition max_due_at (self : t) : M Z :=
  λ w, (w, match datetime_add (clock w) (max_interval self * 1000000) with
           | inr dt => inr (to_timestamp dt)
           | inl e => inl e
           end).

(** The keys that [schedule] asks the sorted set for. *)
Definition due_tasks (self : t) : M (list string) :=
  limit ← max_due_at self;
  Redis.zrangebyscore (REDBEAT_SCHEDULE_KEY (conf (app self))) 0 limit.

(** Property [schedule]. *)
Definition schedule (self : t) : M (gmap (pyval R) Entry) :=
  due ← due_tasks self;
  collect self due ∅.

(** [tick()]; [super_tick] is [Scheduler.tick] of the base class, which
    goes through the entries of [schedule] and sends the due ones. *)
Definition tick {A} (super_tick : t → M A) (self : t) : M A :=
  match lock self with
  | Some _ => Redis.pexpire (lock_key self) (lock_timeout self * 1000)
  | None => ret tt
  end;;
  super_tick self.

End scheduler.
End RedBeatScheduler.

(** ** Reference collaborators

    One instance of each collaborator, on which the statements below are
    exercised. *)
Module Reference.

(** A rule that recurs every [seconds], in the manner of
    [celery.schedules.schedule]. *)
Inductive interval : Type := Every (seconds : Z).

#[export] Instance interval_eq_dec : EqDecision interval.
Proof. solve_decision. Defined.

#[export] Instance interval_countable : Countable interval :=
  inj_countable' (λ '(Every s), s) Every (λ '(Every s), eq_refl).

#[export] Instance interval_rule : RecurrenceRule interval := {|
  remaining_estimate := λ '(Every s) now last, last + s * 1000000 - now;
  rule_is_due := λ '(Every s) now last,
    let rem := last + s * 1000000 - now in
    if bool_decide (rem ≤ 0)%Z then (true, Qmake s 1)
    else (false, Qmake rem 1000000)
|}.

(** A wire form: the binary digits of the code that stdpp's [Countable]
    gives a record. *)
Fixpoint pos_to_bits (p : positive) : string :=
  match p with
  | xH => "1"
  | xO p' => String "0" (pos_to_bits p')
  | xI p' => String "1" (pos_to_bits p')
  end.

Fixpoint bits_to_pos (s : string) : option positive :=
  match s with
  | EmptyString => None
  | String c s' =>
      if Ascii.eqb c "1" then
        match s' with
        | EmptyString => Some xH
        | _ => xI <$> bits_to_pos s'
        end
      else if Ascii.eqb c "0" then xO <$> bits_to_pos s'
      else None
  end.

Lemma bits_to_pos_to_bits (p : positive) :
  bits_to_pos (pos_to_bits p) = Some p.
Proof.
  induction p as [p IH | p IH | ]; cbn; [ | by rewrite IH | done].
  rewrite IH. by destruct p.
Qed.

Lemma pos_to_bits_nonempty (p : positive) : pos_to_bits p ≠ "".
Proof. by destruct p. Qed.

#[export] Program Instance bits_codec {R} `{Countable R} : Codec R := {|
  dumps := λ d, pos_to_bits (encode d);
  loads := λ s, bits_to_pos s ≫= decode
|}.
Next Obligation.
  intros R ? ? d. cbn. rewrite bits_to_pos_to_bits. cbn. apply decode_encode.
Qed.
Next Obligation. intros R ? ? d. apply pos_to_bits_nonempty. Qed.

(** The configuration that [add_defaults] gives an application without
    settings of its own. *)
Definition default_conf {R} : Conf R := {|
  REDBEAT_KEY_PREFIX := "redbeat:";
  REDBEAT_SCHEDULE_KEY := "redbeat::schedule";
  REDBEAT_STATICS_KEY := "redbeat::statics";
  REDBEAT_LOCK_KEY := "redbeat::lock";
  REDBEAT_LOCK_TIMEOUT := 1500;
  CELERYBEAT_SCHEDULE := ∅;
  CELERYBEAT_MAX_LOOP_INTERVAL := 300
|}.

(** A platform on UTC: 1970-01-01 is 62135596800 seconds after
    [datetime.min]. *)
#[export] Instance utc_runtime {R} : Runtime R := {|
  mktime := λ s, s - 62135596800;
  default_app := {| conf := default_conf |}
|}.

Definition empty_world (now : Z) : world := World ∅ ∅ ∅ ∅ ∅ now.

End Reference.

(** * Properties *)

(** The bytes stored in a field of the hash at [key]. *)
Definition stored (key field : string) (w : world) : option string :=
  hashes w !! key ≫= (.!! field).

(** The score that the sorted set at [index] holds for [member]. *)
Definition indexed (index member : string) (w : world) : option Z :=
  zsets w !! index ≫= (.!! member).

(** The members of the set at [key]. *)
Definition members (key : string) (w : world) : gset string :=
  default ∅ (sets w !! key).

(** Running a computation step by step. *)
Ltac run :=
  repeat (unfold bind, ret, raise, lift, exec, outcome, global_string,
            Redis.hget, Redis.hset, Redis.zadd, Redis.zrem, Redis.smembers,
            Redis.sadd, Redis.pexpire, Redis.delete,
            RedBeatSchedulerEntry._default_now in *;
          cbn [fst snd hashes zsets sets strs ttl clock] in *).

(** ** The entry *)
Section entry_properties.
Context {R : Type} `{!RecurrenceRule R} `{!Codec R} `{!Runtime R}.
Import RedBeatSchedulerEntry.

Implicit Types (self e : @RedBeatSchedulerEntry.t R) (w : world).

Lemma stored_hset key field value key' field' w :
  stored key' field' (exec (Redis.hset key field value) w) =
  if decide (key = key' ∧ field = field') then Some value
  else stored key' field' w.
Proof.
  unfold stored. run.
  destruct (decide (key = key')) as [<- | Hk].
  - rewrite lookup_insert_eq. cbn.
    destruct (decide (field = field')) as [<- | Hf].
    + rewrite lookup_insert_eq. by rewrite decide_True.
    + rewrite lookup_insert_ne by done.
      rewrite decide_False by (by intros [_ ?]).
      by destruct (hashes w !! key).
  - rewrite lookup_insert_ne by done.
    by rewrite decide_False by (by intros [? _]).
Qed.

Lemma indexed_zadd index score member index' member' w :
  indexed index' member' (exec (Redis.zadd index score member) w) =
  if decide (index = index' ∧ member = member') then Some score
  else indexed index' member' w.
Proof.
  unfold indexed. run.
  destruct (decide (index = index')) as [<- | Hk].
  - rewrite lookup_insert_eq. cbn.
    destruct (decide (member = member')) as [<- | Hf].
    + rewrite lookup_insert_eq. by rewrite decide_True.
    + rewrite lookup_insert_ne by done.
      rewrite decide_False by (by intros [_ ?]).
      by destruct (zsets w !! index).
  - rewrite lookup_insert_ne by done.
    by rewrite decide_False by (by intros [? _]).
Qed.

(** The properties read the clock and the entry, never the server. *)
Lemma key_pure self w : (key self w).1 = w.
Proof. unfold key. destruct (name self); reflexivity. Qed.

Lemma due_at_pure self w : (due_at self w).1 = w.
Proof.
  unfold due_at. destruct (schedule self); try reflexivity.
  destruct (last_run_at self); reflexivity.
Qed.

Lemma score_pure self w : (score self w).1 = w.
Proof.
  unfold score, bind. pose proof (due_at_pure self w) as Hd.
  destruct (due_at self w) as [w' [x | dt]]; cbn in *; by subst.
Qed.

Lemma key_clock self w w' :
  (key self w).2 = (key self w').2.
Proof. unfold key. destruct (name self); reflexivity. Qed.

Lemma score_clock self w w' :
  clock w = clock w' → (score self w).2 = (score self w').2.
Proof.
  intros Hc. unfold score, bind, due_at.
  destruct (schedule self); try reflexivity.
  destruct (last_run_at self); try reflexivity.
  rewrite Hc. by destruct (datetime_add _ _).
Qed.

Lemma key_outcome self w k :
  outcome (key self) w = inr k → key self w = (w, inr k).
Proof.
  intros Hk. pose proof (key_pure self w) as Hw. unfold outcome in Hk.
  destruct (key self w) as [w' r]; cbn in *. by subst.
Qed.

Lemma score_outcome self w s :
  outcome (score self) w = inr s → score self w = (w, inr s).
Proof.
  intros Hk. pose proof (score_pure self w) as Hw. unfold outcome in Hk.
  destruct (score self w) as [w' r]; cbn in *. by subst.
Qed.

Lemma key_run self w0 w k :
  outcome (key self) w0 = inr k → key self w = (w, inr k).
Proof.
  unfold outcome, key, raise, ret.
  destruct (name self); cbn; intros [= <-]; reflexivity.
Qed.

Lemma score_run self w0 w s :
  clock w = clock w0 → outcome (score self) w0 = inr s →
  score self w = (w, inr s).
Proof.
  intros Hc Hs. apply score_outcome. unfold outcome.
  by rewrite (score_clock self w w0 Hc).
Qed.

Lemma bind_inr {A B} (c : M A) (k : A → M B) w w' a :
  c w = (w', inr a) → bind c k w = k a w'.
Proof. unfold bind. by intros ->. Qed.

Lemma bind_inl {A B} (c : M A) (k : A → M B) w w' x :
  c w = (w', inl x) → bind c k w = (w', inl x).
Proof. unfold bind. by intros ->. Qed.

Lemma global_schedule_key_unbound :
  global_string "REDBEAT_SCHEDULE_KEY"
  = raise (NameError "REDBEAT_SCHEDULE_KEY").
Proof. reflexivity. Qed.

(** *** Writing *)

(** What [save] does on an entry that has an application, a string for a
    name and a score: it writes the definition, then the score. *)
Lemma save_run self w a k s :
  app self = Some a →
  outcome (key self) w = inr k →
  outcome (score self) w = inr s →
  save self w
  = (exec (Redis.zadd (REDBEAT_SCHEDULE_KEY (conf a)) s k)
       (exec (Redis.hset k "definition" (dumps (definition_of self))) w),
     inr tt).
Proof.
  intros Ha Hk Hs. unfold save, app_conf. rewrite Ha. cbv zeta.
  rewrite (bind_inr _ _ w w k (key_run self w w k Hk)).
  set (w1 := exec (Redis.hset k "definition" (dumps (definition_of self))) w).
  rewrite (bind_inr (Redis.hset k _ _) _ w w1 tt eq_refl).
  rewrite (bind_inr (ret (conf a)) _ w1 w1 (conf a) eq_refl).
  rewrite (bind_inr _ _ w1 w1 s (score_run self w w1 s eq_refl Hs)).
  rewrite (bind_inr _ _ w1 w1 k (key_run self w w1 k Hk)).
  reflexivity.
Qed.

(** After [save] the index holds the entry's score under the entry's key. *)
Lemma save_indexes self w a k s :
  app self = Some a →
  outcome (key self) w = inr k →
  outcome (score self) w = inr s →
  outcome (save self) w = inr tt
  ∧ indexed (REDBEAT_SCHEDULE_KEY (conf a)) k (exec (save self) w) = Some s.
Proof.
  intros Ha Hk Hs. unfold outcome, exec.
  rewrite (save_run self w a k s Ha Hk Hs). split; [done | ].
  cbn [fst]. rewrite indexed_zadd. by rewrite decide_True.
Qed.

(** The entry as [reschedule] and [next] first update it. *)
Definition at_last_run self (last : pyval R) w : RedBeatSchedulerEntry.t :=
  Entry (name self) (task self) (schedule self) (args self) (kwargs self)
    (options self) (enabled self) (py_or last (PDatetime (clock w)))
    (total_run_count self) (app self).

(** What [reschedule] does on such an entry: it writes a meta record of one
    key, then the score of the updated entry. *)
Lemma reschedule_run self last w a k s :
  app self = Some a →
  outcome (key self) w = inr k →
  outcome (score (at_last_run self last w)) w = inr s →
  reschedule self last w
  = (exec (Redis.zadd (REDBEAT_SCHEDULE_KEY (conf a)) s k)
       (exec (Redis.hset k "meta"
                (dumps {[ "last_run_at" := py_or last (PDatetime (clock w)) ]}))
          w),
     inr (at_last_run self last w)).
Proof.
  intros Ha Hk Hs. unfold reschedule.
  rewrite (bind_inr _default_now _ w w (PDatetime (clock w)) eq_refl).
  fold (at_last_run self last w). cbv zeta.
  set (self' := at_last_run self last w) in *.
  assert (Hk' : outcome (key self') w = inr k) by exact Hk.
  rewrite (bind_inr _ _ w w k (key_run self' w w k Hk')).
  set (w1 := exec (Redis.hset k "meta"
                     (dumps {[ "last_run_at" :=
                                py_or last (PDatetime (clock w)) ]})) w).
  rewrite (bind_inr (Redis.hset k _ _) _ w w1 tt eq_refl).
  unfold app_conf. cbn [app self' at_last_run]. rewrite Ha.
  rewrite (bind_inr (ret (conf a)) _ w1 w1 (conf a) eq_refl).
  rewrite (bind_inr _ _ w1 w1 s (score_run self' w w1 s eq_refl Hs)).
  rewrite (bind_inr _ _ w1 w1 k (key_run self' w w1 k Hk')).
  reflexivity.
Qed.

(** After [reschedule] the index holds the score of the updated entry. *)
Lemma reschedule_indexes self last w a k s :
  app self = Some a →
  outcome (key self) w = inr k →
  outcome (score (at_last_run self last w)) w = inr s →
  outcome (reschedule self last) w = inr (at_last_run self last w)
  ∧ indexed (REDBEAT_SCHEDULE_KEY (conf a)) k (exec (reschedule self last) w)
    = Some s.
Proof.
  intros Ha Hk Hs. unfold outcome, exec.
  rewrite (reschedule_run self last w a k s Ha Hk Hs). split; [done | ].
  cbn [fst]. rewrite indexed_zadd. by rewrite decide_True.
Qed.

(** The path that does not keep the score: [next] never touches a
    sorted set and never returns.  On an entry with a string for a name and
    a number for a count it writes the advanced meta record and then raises
    [NameError], so the index is left with the score of the previous
    [last_run_at]. *)
Lemma next_never_reindexes self (last : pyval R) w :
  zsets (exec (next self last) w) = zsets w
  ∧ (∀ self', outcome (next self last) w ≠ inr self')
  ∧ (∀ k n,
       outcome (key self) w = inr k → total_run_count self = PInt n →
       outcome (next self last) w = inl (NameError "REDBEAT_SCHEDULE_KEY")
       ∧ stored k "meta" (exec (next self last) w)
         = Some (dumps {[ "last_run_at" := py_or last (PDatetime (clock w));
                          "total_run_count" := PInt (n + 1) ]})).
Proof.
  unfold exec, outcome, next.
  rewrite (bind_inr _default_now _ w w (PDatetime (clock w)) eq_refl).
  cbv zeta. cbn [name task schedule args kwargs options enabled last_run_at
                 total_run_count app].
  destruct (incr (total_run_count self)) as [x | count] eqn:Hc.
  { rewrite (bind_inl (lift (inl x)) _ w w x eq_refl).
    split; [done | split; [done | ] ].
    intros k n _ Hn. by rewrite Hn in Hc. }
  rewrite (bind_inr (lift (inr count)) _ w w count eq_refl).
  match goal with |- context [key ?e] => set (self' := e) end.
  assert (Hkk : ∀ k, (key self w).2 = inr k → (key self' w).2 = inr k)
    by (intros k Hk; exact Hk).
  destruct (key self' w).2 as [x | k'] eqn:Hk'.
  { assert (Hx : key self' w = (w, inl x)).
    { pose proof (key_pure self' w) as Hp.
      destruct (key self' w); cbn in *; by subst. }
    rewrite (bind_inl _ _ w w x Hx).
    split; [done | split; [done | ] ].
    intros k n Hk _. apply Hkk in Hk. congruence. }
  rewrite (bind_inr _ _ w w k' (key_run self' w w k' Hk')).
  cbn [last_run_at total_run_count self'].
  set (meta := dumps _).
  set (w1 := exec (Redis.hset k' "meta" meta) w).
  rewrite (bind_inr (Redis.hset k' _ _) _ w w1 tt eq_refl).
  rewrite global_schedule_key_unbound.
  rewrite (bind_inl (raise _) _ w1 w1 (NameError "REDBEAT_SCHEDULE_KEY")
             eq_refl).
  cbn [fst snd]. split; [done | split; [done | ] ].
  intros k n Hk Hn. apply Hkk in Hk. injection Hk as ->.
  rewrite Hn in Hc. cbn in Hc. injection Hc as <-.
  split; [done | ].
  unfold w1. rewrite stored_hset. by rewrite decide_True.
Qed.

(** *** Reading back *)

Lemma load_definition_run (key : string) w d :
  stored key "definition" w = Some (dumps d) →
  load_definition key w = (w, inr d).
Proof.
  unfold load_definition, stored. intros Hd.
  rewrite (bind_inr (Redis.hget key _) _ w w (Some (dumps d))).
  - pose proof (dumps_nonempty d) as Hne.
    destruct (dumps d) eqn:E; [done | ]. rewrite <- E.
    unfold lift. by rewrite loads_dumps.
  - unfold Redis.hget. by rewrite Hd.
Qed.

Lemma load_meta_run (key : string) w m :
  stored key "meta" w = Some (dumps m) → load_meta key w = (w, inr m).
Proof.
  unfold load_meta, stored. intros Hd.
  rewrite (bind_inr (Redis.hget key _) _ w w (Some (dumps m))).
  - pose proof (dumps_nonempty m) as Hne.
    destruct (dumps m) eqn:E; [done | ]. rewrite <- E.
    unfold lift. by rewrite loads_dumps.
  - unfold Redis.hget. by rewrite Hd.
Qed.

Lemma load_meta_stored (key : string) w w' :
  stored key "meta" w = stored key "meta" w' →
  outcome (load_meta key) w = outcome (load_meta key) w'.
Proof.
  unfold outcome, load_meta, stored, bind, Redis.hget. cbn. intros ->.
  destruct (hashes w' !! key ≫= _) as [[ | ] | ]; reflexivity.
Qed.

Lemma load_meta_pure (key : string) w : exec (load_meta key) w = w.
Proof.
  unfold exec, load_meta, stored, bind, Redis.hget. cbn.
  destruct (hashes w !! key ≫= _) as [[ | ] | ]; reflexivity.
Qed.

Lemma init_run (kw : pydict R) (a : option (App R)) w :
  dom kw ⊆ init_keywords →
  init kw a w = (w, inr (construct kw a (PDatetime (clock w)))).
Proof. intros Hd. unfold init. by rewrite bool_decide_eq_true_2. Qed.

(** [from_key] on a key that holds an encoded definition and a readable
    meta record whose keys are all keywords of the constructor. *)
Lemma from_key_run (key : string) w d m :
  stored key "definition" w = Some (dumps d) →
  outcome (load_meta key) w = inr m →
  dom (m ∪ d) ⊆ init_keywords →
  from_key key w = (w, inr (construct (m ∪ d) None (PDatetime (clock w)))).
Proof.
  intros Hd Hm Hdom. unfold from_key.
  rewrite (bind_inr _ _ w w d (load_definition_run key w d Hd)).
  rewrite (bind_inr _ _ w w m).
  - by apply init_run.
  - pose proof (load_meta_pure key w) as Hp. unfold exec, outcome in *.
    destruct (load_meta key w); cbn in *; by subst.
Qed.

Lemma dom_definition_of self :
  dom (definition_of self)
  = {[ "name"; "task"; "args"; "kwargs"; "options"; "schedule"; "enabled" ]}.
Proof. unfold definition_of. rewrite !dom_insert_L, dom_singleton_L. done. Qed.

Lemma lookup_definition_of self :
  definition_of self !! "name" = Some (name self)
  ∧ definition_of self !! "task" = Some (task self)
  ∧ definition_of self !! "args" = Some (args self)
  ∧ definition_of self !! "kwargs" = Some (kwargs self)
  ∧ definition_of self !! "options" = Some (options self)
  ∧ definition_of self !! "schedule" = Some (schedule self)
  ∧ definition_of self !! "enabled" = Some (enabled self)
  ∧ definition_of self !! "last_run_at" = None
  ∧ definition_of self !! "total_run_count" = None.
Proof. unfold definition_of. repeat split; by simplify_map_eq. Qed.

(** The meta records that [next] and [reschedule] write have these keys
    and no other. *)
Definition meta_keys : gset string := {[ "last_run_at"; "total_run_count" ]}.

(** The entry that [from_key] builds from a saved definition of [self] and
    a meta record [m] with the keys of a meta record. *)
Lemma construct_saved self (m : pydict R) now :
  dom m ⊆ meta_keys →
  construct (m ∪ definition_of self) None now
  = Entry (name self) (task self) (schedule self) (args self) (kwargs self)
      (options self) (enabled self)
      (py_or (default PNone (m !! "last_run_at")) now)
      (py_or (default PNone (m !! "total_run_count")) (PInt 0))
      None.
Proof.
  intros Hm.
  destruct (lookup_definition_of self)
    as (Hn & Ht & Ha & Hk & Ho & Hs & He & Hl & Hc).
  assert (Hout : ∀ i, i ∉ meta_keys →
            (m ∪ definition_of self) !! i = definition_of self !! i).
  { intros i Hi. apply lookup_union_r, not_elem_of_dom. set_solver. }
  unfold construct.
  rewrite !Hout by (unfold meta_keys; set_solver).
  rewrite Hn, Ht, Ha, Hk, Ho, Hs, He.
  rewrite !lookup_union_l by done.
  reflexivity.
Qed.

Lemma stored_zadd index score member key field w :
  stored key field (exec (Redis.zadd index score member) w)
  = stored key field w.
Proof. reflexivity. Qed.

(** C2, as the code has it: [save] then [from_key] on the entry's key gives
    back the seven attributes of the definition.  [save] writes no meta
    record, so [last_run_at] and [total_run_count] are read from the meta
    record [m] that the key already holds (for a key without one, [m] is
    the record of [load_meta] with [datetime.min]), with the constructor's
    defaults for what [m] lacks; the loaded entry has no application. *)
Theorem save_then_from_key self w a k s (m : pydict R) :
  app self = Some a →
  outcome (key self) w = inr k →
  outcome (score self) w = inr s →
  outcome (load_meta k) w = inr m →
  dom m ⊆ meta_keys →
  outcome (save self) w = inr tt
  ∧ stored k "meta" (exec (save self) w) = stored k "meta" w
  ∧ outcome (from_key k) (exec (save self) w)
    = inr (Entry (name self) (task self) (schedule self) (args self)
             (kwargs self) (options self) (enabled self)
             (py_or (default PNone (m !! "last_run_at"))
                (PDatetime (clock w)))
             (py_or (default PNone (m !! "total_run_count")) (PInt 0))
             None).
Proof.
  intros Ha Hk Hs Hm Hdom. unfold outcome at 1, exec.
  rewrite (save_run self w a k s Ha Hk Hs). cbn [fst snd].
  split; [done | ].
  assert (Hmeta : stored k "meta"
            (exec (Redis.zadd (REDBEAT_SCHEDULE_KEY (conf a)) s k)
               (exec (Redis.hset k "definition" (dumps (definition_of self)))
                  w))
          = stored k "meta" w).
  { rewrite stored_zadd, stored_hset. by rewrite decide_False by (by intros [_ ?]). }
  split; [exact Hmeta | ].
  unfold outcome.
  erewrite from_key_run.
  - cbn [snd]. f_equal. by apply construct_saved.
  - rewrite stored_zadd, stored_hset. by rewrite decide_True.
  - rewrite <- Hm. by apply load_meta_stored.
  - rewrite dom_union_L, dom_definition_of.
    unfold meta_keys, init_keywords in *. set_solver.
Qed.

(** C6, what [reschedule] persists: on an entry with an application, a
    string for a name and a score, [reschedule] returns the entry with its
    [total_run_count] as it was, and the meta record it stores has the one
    key [last_run_at]; so when the key holds a saved definition, [from_key]
    then builds an entry whose [total_run_count] is the constructor's
    default [0], whatever count the meta record held before. *)
Theorem reschedule_forgets_run_count self (last : pyval R) w a k s saved :
  app self = Some a →
  outcome (key self) w = inr k →
  outcome (score (at_last_run self last w)) w = inr s →
  stored k "definition" w = Some (dumps (definition_of saved)) →
  ∃ self' loaded,
    outcome (reschedule self last) w = inr self'
    ∧ total_run_count self' = total_run_count self
    ∧ stored k "meta" (exec (reschedule self last) w)
      = Some (dumps {[ "last_run_at" := last_run_at self' ]})
    ∧ outcome (from_key k) (exec (reschedule self last) w) = inr loaded
    ∧ last_run_at loaded = last_run_at self'
    ∧ total_run_count loaded = PInt 0.
Proof.
  intros Ha Hk Hs Hd.
  set (v := py_or last (PDatetime (clock w))).
  assert (Hv : truthy v = true).
  { unfold v, py_or. by destruct (truthy last) eqn:E. }
  exists (at_last_run self last w).
  exists (Entry (name saved) (task saved) (schedule saved) (args saved)
            (kwargs saved) (options saved) (enabled saved) v (PInt 0) None).
  unfold outcome at 1, exec.
  rewrite (reschedule_run self last w a k s Ha Hk Hs). cbn [fst snd].
  fold v. set (m := {[ "last_run_at" := v ]} : pydict R).
  assert (Hmeta : stored k "meta"
            (exec (Redis.zadd (REDBEAT_SCHEDULE_KEY (conf a)) s k)
               (exec (Redis.hset k "meta" (dumps m)) w))
          = Some (dumps m)).
  { rewrite stored_zadd, stored_hset. by rewrite decide_True. }
  split; [done | ]. split; [done | ]. split; [exact Hmeta | ].
  assert (Hdom : dom m ⊆ meta_keys).
  { unfold m, meta_keys. rewrite dom_singleton_L. set_solver. }
  unfold outcome.
  erewrite (from_key_run k _ (definition_of saved) m).
  - cbn [snd]. rewrite (construct_saved saved m _ Hdom).
    unfold m. rewrite lookup_singleton_eq, lookup_singleton_ne by done.
    cbn [default from_option id]. unfold py_or at 1 2. rewrite Hv.
    done.
  - rewrite stored_zadd, stored_hset.
    by rewrite decide_False by (by intros [_ ?]).
  - unfold outcome. by rewrite (load_meta_run k _ m Hmeta).
  - rewrite dom_union_L, dom_definition_of.
    unfold meta_keys, init_keywords in *. set_solver.
Qed.

(** *** Due checks *)

(** C8, disabled entries: an entry whose [enabled] is [False] reports
    [(False, 5.0)] whatever its other attributes, its schedule and its
    [last_run_at] included; an entry whose [enabled] is [True] reports what
    [is_due] of the base class does, which is what the recurrence rule
    answers for the entry's [last_run_at]. *)
Theorem is_due_disabled_or_delegated
    (name task schedule args kwargs options last_run_at total_run_count :
       pyval R)
    (app : option (App R)) w :
  is_due (Entry name task schedule args kwargs options (PBool false)
            last_run_at total_run_count app) w
  = (w, inr (false, Qmake 5 1))
  ∧ is_due (Entry name task schedule args kwargs options (PBool true)
              last_run_at total_run_count app) w
    = ScheduleEntry_is_due
        (Entry name task schedule args kwargs options (PBool true)
           last_run_at total_run_count app) w
  ∧ ∀ r last,
      is_due (Entry name task (PRule r) args kwargs options (PBool true)
                (PDatetime last) total_run_count app) w
      = (w, inr (rule_is_due r (clock w) last)).
Proof. repeat split. Qed.

(** *** Loading *)

(** C9, as the code has it: [load_meta] never changes the server; on an
    absent or empty meta field it returns the record whose [last_run_at] is
    [datetime.min]; on other bytes it returns the record they decode to;
    and it raises only where the stored bytes do not decode. *)
Theorem load_meta_default_or_decoded (key : string) w :
  exec (load_meta key) w = w
  ∧ (stored key "meta" w = None ∨ stored key "meta" w = Some "" →
     outcome (load_meta key) w
     = inr {[ "last_run_at" := PDatetime datetime_min ]})
  ∧ (∀ bytes m,
       stored key "meta" w = Some bytes → bytes ≠ "" →
       loads bytes = Some m → outcome (load_meta key) w = inr m)
  ∧ (∀ x,
       outcome (load_meta key) w = inl x →
       x = ValueError
       ∧ ∃ bytes,
           stored key "meta" w = Some bytes ∧ bytes ≠ ""
           ∧ loads bytes = None).
Proof.
  unfold load_meta, stored. run.
  destruct (hashes w !! key ≫= _) as [[ | c bytes] | ] eqn:E; cbn.
  - repeat split; try done. intros bytes m [= <-]. done.
  - repeat split.
    + intros [? | ?]; done.
    + intros bytes' m [= <-] _ ->. done.
    + destruct (loads (String c bytes)); cbn in *; congruence.
    + exists (String c bytes).
      destruct (loads (String c bytes)); cbn in *; done.
  - repeat split; try done.
Qed.

End entry_properties.

(** ** The scheduler *)
Section scheduler_properties.
Context {R : Type} `{Countable R}
        `{!RecurrenceRule R} `{!Codec R} `{!Runtime R}.
Import RedBeatSchedulerEntry.

Implicit Types (self : @RedBeatScheduler.t R) (w : world).

(** *** The query *)

Lemma zrangebyscore_run (index : string) (lo hi : Z) w :
  ∃ due,
    Redis.zrangebyscore index lo hi w = (w, inr due)
    ∧ ∀ member,
        member ∈ due
        ↔ ∃ score, indexed index member w = Some score
                   ∧ (lo ≤ score ≤ hi)%Z.
Proof.
  eexists. split; [reflexivity | ]. intros member.
  rewrite list_elem_of_fmap. unfold indexed.
  split.
  - intros ([member' score] & -> & Hin).
    rewrite merge_sort_Permutation in Hin.
    apply list_elem_of_filter in Hin as [Hr Hin].
    exists score. split; [ | done].
    destruct (zsets w !! index) as [z | ]; cbn [default from_option id] in Hin.
    + by apply elem_of_map_to_list in Hin.
    + rewrite map_to_list_empty in Hin. by apply elem_of_nil in Hin.
  - intros (score & Hs & Hr). exists (member, score). split; [done | ].
    rewrite merge_sort_Permutation. apply list_elem_of_filter. split; [done | ].
    apply elem_of_map_to_list.
    destruct (zsets w !! index) as [z | ]; [done | discriminate].
Qed.

(** C3, as the code has it: when the look-ahead instant [now +
    max_interval] is a datetime, the query of a tick returns exactly the
    keys of the index whose score lies between [0] and the timestamp of
    that instant, both included. *)
Theorem due_tasks_between_zero_and_horizon self w horizon :
  datetime_add (clock w) (RedBeatScheduler.max_interval self * 1000000)
  = inr horizon →
  ∃ due,
    RedBeatScheduler.due_tasks self w = (w, inr due)
    ∧ ∀ key,
        key ∈ due
        ↔ ∃ score,
            indexed
              (REDBEAT_SCHEDULE_KEY (conf (RedBeatScheduler.app self)))
              key w
            = Some score
            ∧ (0 ≤ score ≤ to_timestamp horizon)%Z.
Proof.
  intros Hh. unfold RedBeatScheduler.due_tasks.
  rewrite (bind_inr (RedBeatScheduler.max_due_at self) _ w w
             (to_timestamp horizon)).
  - apply zrangebyscore_run.
  - unfold RedBeatScheduler.max_due_at. by rewrite Hh.
Qed.

(** *** Collecting the candidates *)

(** A key whose definition field is absent or empty. *)
Definition dangling (key : string) (w : world) : bool :=
  match stored key "definition" w with
  | None | Some "" => true
  | Some _ => false
  end.

(** A key that holds what this module writes: the definition of a saved
    entry with a hashable name, and a meta field that is absent or holds a
    record with the keys of a meta record. *)
Definition well_kept (key : string) (w : world) : Prop :=
  ∃ (saved : RedBeatSchedulerEntry.t) (m : pydict R),
    stored key "definition" w = Some (dumps (definition_of saved))
    ∧ outcome (load_meta key) w = inr m
    ∧ dom m ⊆ meta_keys
    ∧ RedBeatScheduler.hashable (name saved) = true.

(** The entry that [from_key] loads, if it loads one. *)
Definition loaded (w : world) (key : string) :
    option RedBeatSchedulerEntry.t :=
  match outcome (from_key key) w with
  | inr entry => Some entry
  | inl _ => None
  end.

(** The dict that the loop of [schedule] builds from the entries it loads,
    in the order it loads them. *)
Definition by_name (d : gmap (pyval R) RedBeatSchedulerEntry.t)
    (entries : list RedBeatSchedulerEntry.t) :
    gmap (pyval R) RedBeatSchedulerEntry.t :=
  foldl (λ d entry, <[name entry := entry]> d) d entries.

Lemma from_key_pure (key : string) w : exec (from_key key) w = w.
Proof.
  unfold exec, from_key, load_definition, load_meta, init, bind, lift, ret,
    raise, Redis.hget, _default_now. cbn.
  repeat (case_match; simplify_eq; cbn in *; try done).
Qed.

Lemma from_key_reads (key : string) w w' :
  hashes w = hashes w' → clock w = clock w' →
  outcome (from_key key) w = outcome (from_key key) w'.
Proof.
  intros Hh Hc. destruct w, w'. cbn in Hh, Hc. subst.
  unfold outcome, from_key, load_definition, load_meta, init, bind, lift, ret,
    raise, Redis.hget, _default_now. cbn.
  repeat (case_match; simplify_eq; cbn in *; try done).
Qed.

Lemma from_key_dangling (key : string) w :
  dangling key w = true → from_key key w = (w, inl (KeyError key)).
Proof.
  unfold dangling, stored, from_key, load_definition, bind, Redis.hget, raise.
  cbn. by destruct (hashes w !! key ≫= _) as [[ | ] | ].
Qed.

Lemma from_key_well_kept (key : string) w :
  well_kept key w →
  ∃ entry,
    from_key key w = (w, inr entry)
    ∧ RedBeatScheduler.hashable (name entry) = true.
Proof.
  intros (saved & m & Hd & Hm & Hdom & Hh).
  eexists. split.
  - apply (from_key_run key w (definition_of saved) m Hd Hm).
    rewrite dom_union_L, dom_definition_of.
    unfold meta_keys, init_keywords in *. set_solver.
  - by rewrite construct_saved.
Qed.

Lemma indexed_zrem index member index' member' w :
  indexed index' member' (exec (Redis.zrem index member) w) =
  if decide (index = index' ∧ member = member') then None
  else indexed index' member' w.
Proof.
  unfold indexed, exec, Redis.zrem. cbn.
  destruct (zsets w !! index) as [z | ] eqn:Hz.
  - destruct (decide (index = index')) as [<- | Hi].
    + rewrite lookup_insert_eq, Hz. cbn.
      destruct (decide (member = member')) as [<- | Hm].
      * rewrite lookup_delete_eq. by rewrite decide_True.
      * rewrite lookup_delete_ne by done.
        by rewrite decide_False by (by intros [_ ?]).
    + rewrite lookup_insert_ne by done.
      by rewrite decide_False by (by intros [? _]).
  - case_decide as Hd; [ | done]. destruct Hd as [<- _]. by rewrite Hz.
Qed.

(** The worlds that differ only in their sorted sets. *)
Definition same_but_zsets (w w' : world) : Prop :=
  hashes w' = hashes w ∧ sets w' = sets w ∧ strs w' = strs w
  ∧ ttl w' = ttl w ∧ clock w' = clock w.

Lemma dangling_reads (key : string) w w' :
  same_but_zsets w w' → dangling key w' = dangling key w.
Proof. intros (Hh & _). unfold dangling, stored. by rewrite Hh. Qed.

Lemma well_kept_reads (key : string) w w' :
  same_but_zsets w w' → well_kept key w → well_kept key w'.
Proof.
  intros (Hh & _) (saved & m & Hd & Hm & Hdom & Hn).
  exists saved, m. unfold stored in *. rewrite Hh. split; [done | ].
  split; [ | done]. rewrite <- Hm. apply load_meta_stored.
  unfold stored. by rewrite Hh.
Qed.

Lemma loaded_reads (key : string) w w' :
  same_but_zsets w w' → loaded w' key = loaded w key.
Proof.
  intros (Hh & _ & _ & _ & Hc). unfold loaded.
  by rewrite (from_key_reads key w' w Hh Hc).
Qed.

Lemma omap_loaded_reads (due : list string) w w' :
  same_but_zsets w w' → omap (loaded w') due = omap (loaded w) due.
Proof.
  intros Hs. induction due as [ | key due IH]; [done | ].
  cbn [omap list_omap]. by rewrite IH, (loaded_reads key w w' Hs).
Qed.

(** The loop of [schedule], over keys that each dangle or are well kept. *)
Lemma collect_run self (due : list string) :
  ∀ d w,
    (∀ key, key ∈ due → dangling key w = true ∨ well_kept key w) →
    ∃ w',
      RedBeatScheduler.collect self due d w
      = (w', inr (by_name d (omap (loaded w) due)))
      ∧ same_but_zsets w w'
      ∧ ∀ index key,
          indexed index key w'
          = if decide (index = REDBEAT_SCHEDULE_KEY
                                 (conf (RedBeatScheduler.app self))
                       ∧ key ∈ due ∧ dangling key w = true)
            then None else indexed index key w.
Proof.
  induction due as [ | key due IH]; intros d w Hdue.
  { exists w. split; [reflexivity | ]. split; [done | ].
    intros index key'. rewrite decide_False; [done | ].
    intros (_ & Hin & _). by apply elem_of_nil in Hin. }
  cbn [RedBeatScheduler.collect omap list_omap].
  destruct (Hdue key ltac:(left)) as [Hd | Hk].
  - (* the key dangles: it leaves the index and the loop goes on *)
    set (index0 := REDBEAT_SCHEDULE_KEY (conf (RedBeatScheduler.app self))).
    set (w1 := exec (Redis.zrem index0 key) w).
    assert (Hsame : same_but_zsets w w1) by done.
    erewrite bind_inr; cycle 1.
    { unfold try_KeyError.
      rewrite (bind_inl _ _ w w _ (from_key_dangling key w Hd)).
      fold index0.
      by rewrite (bind_inr (Redis.zrem index0 key) _ w w1 tt eq_refl). }
    cbv beta iota.
    destruct (IH d w1) as (w' & Hrun & Hsame' & Hidx).
    { intros key' Hin. destruct (Hdue key' ltac:(by right)) as [? | ?].
      - left. by rewrite (dangling_reads key' w w1 Hsame).
      - right. by apply (well_kept_reads key' w w1 Hsame). }
    exists w'. split; [ | split].
    + rewrite Hrun. f_equal. f_equal.
      unfold loaded at 2. unfold outcome.
      rewrite (from_key_dangling key w Hd). cbn [snd].
      by rewrite (omap_loaded_reads due w w1 Hsame).
    + destruct Hsame as (?&?&?&?&?), Hsame' as (?&?&?&?&?).
      repeat split; congruence.
    + intros index key'. rewrite Hidx. unfold w1. rewrite indexed_zrem.
      repeat case_decide; try done;
        rewrite ?(dangling_reads _ w _ Hsame) in *;
        set_solver.
  - (* the key is well kept: its entry enters the dict under its name *)
    destruct (from_key_well_kept key w Hk) as (entry & Hload & Hhash).
    erewrite bind_inr; cycle 1.
    { unfold try_KeyError. by rewrite (bind_inr _ _ w w entry Hload). }
    cbv beta iota. rewrite Hhash.
    destruct (IH (<[name entry := entry]> d) w) as (w' & Hrun & Hsame' & Hidx).
    { intros key' Hin. apply Hdue. by right. }
    exists w'. split; [ | split; [done | ] ].
    + rewrite Hrun. unfold loaded at 2. unfold outcome. by rewrite Hload.
    + intros index key'. rewrite Hidx.
      assert (Hnd : dangling key w = false).
      { destruct Hk as (saved & m & Hd & _). unfold dangling. rewrite Hd.
        pose proof (dumps_nonempty (definition_of saved)).
        by destruct (dumps _). }
      repeat case_decide; try done.
      * exfalso. set_solver.
      * exfalso. destruct_and!. set_unfold. naive_solver congruence.
Qed.

Lemma by_name_origin (entries : list RedBeatSchedulerEntry.t) :
  ∀ d n entry,
    by_name d entries !! n = Some entry →
    (entry ∈ entries ∧ name entry = n) ∨ d !! n = Some entry.
Proof.
  induction entries as [ | e entries IH]; intros d n entry Hl; [by right | ].
  cbn [by_name foldl] in Hl. apply IH in Hl as [[Hin Hn] | Hl].
  - left. split; [by right | done].
  - destruct (decide (name e = n)) as [<- | Hne].
    + rewrite lookup_insert_eq in Hl. injection Hl as <-. left.
      split; [by left | done].
    + rewrite lookup_insert_ne in Hl by done. by right.
Qed.

Lemma by_name_keeps (entries : list RedBeatSchedulerEntry.t) :
  ∀ d n, is_Some (d !! n) → is_Some (by_name d entries !! n).
Proof.
  induction entries as [ | e entries IH]; intros d n Hd; [done | ].
  cbn [by_name foldl]. apply IH.
  destruct (decide (name e = n)) as [<- | Hne].
  - by rewrite lookup_insert_eq.
  - by rewrite lookup_insert_ne.
Qed.

Lemma by_name_covers (entries : list RedBeatSchedulerEntry.t) :
  ∀ d entry, entry ∈ entries → is_Some (by_name d entries !! name entry).
Proof.
  induction entries as [ | e entries IH]; intros d entry Hin.
  { by apply elem_of_nil in Hin. }
  cbn [by_name foldl]. apply elem_of_cons in Hin as [-> | Hin].
  - apply by_name_keeps. by rewrite lookup_insert_eq.
  - by apply IH.
Qed.

(** The loop of [schedule] never lets a [KeyError] out. *)
Lemma collect_no_KeyError self (due : list string) :
  ∀ d w key, outcome (RedBeatScheduler.collect self due d) w ≠ inl (KeyError key).
Proof.
  induction due as [ | key0 due IH]; intros d w key; [done | ].
  cbn [RedBeatScheduler.collect]. unfold outcome, bind at 1, try_KeyError.
  pose proof (from_key_pure key0 w) as Hp. unfold exec in Hp.
  unfold bind at 1.
  destruct (from_key key0 w) as [w1 [x | entry]] eqn:Hf; cbn in Hp; subst w1.
  - destruct x; try done. unfold bind at 1. cbn. apply IH.
  - cbn. destruct (RedBeatScheduler.hashable _); [apply IH | done].
Qed.

(** C5, as the code has it: [schedule] never raises [KeyError].  When
    every key that the query returns either lacks its definition or holds
    what this module writes, [schedule] returns; it leaves the server as
    it was but for the index, from which exactly the returned keys that
    lack their definition are gone; and the dict it returns holds, under
    its name, an entry loaded from a returned key for every returned key
    that has its definition, and nothing else. *)
Theorem schedule_heals_index self w :
  (∀ key, outcome (RedBeatScheduler.schedule self) w ≠ inl (KeyError key))
  ∧ ∀ due,
      outcome (RedBeatScheduler.due_tasks self) w = inr due →
      (∀ key, key ∈ due → dangling key w = true ∨ well_kept key w) →
      ∃ w' d,
        RedBeatScheduler.schedule self w = (w', inr d)
        ∧ d = by_name ∅ (omap (loaded w) due)
        ∧ same_but_zsets w w'
        ∧ (∀ index key,
             indexed index key w'
             = if decide (index = REDBEAT_SCHEDULE_KEY
                                    (conf (RedBeatScheduler.app self))
                          ∧ key ∈ due ∧ dangling key w = true)
               then None else indexed index key w)
        ∧ (∀ key, key ∈ due → dangling key w = false →
             ∃ entry entry',
               loaded w key = Some entry
               ∧ d !! name entry = Some entry'
               ∧ name entry' = name entry
               ∧ ∃ key', key' ∈ due ∧ loaded w key' = Some entry')
        ∧ (∀ n entry, d !! n = Some entry →
             name entry = n
             ∧ ∃ key, key ∈ due ∧ dangling key w = false
                      ∧ loaded w key = Some entry).
Proof.
  assert (Hdue : ∃ r, RedBeatScheduler.due_tasks self w = (w, r)).
  { unfold RedBeatScheduler.due_tasks, RedBeatScheduler.max_due_at, bind,
      Redis.zrangebyscore.
    destruct (datetime_add _ _); eauto. }
  destruct Hdue as [r Hr]. split.
  - intros key. unfold RedBeatScheduler.schedule, outcome.
    destruct r as [x | due].
    + rewrite (bind_inl _ _ w w x Hr). cbn.
      unfold RedBeatScheduler.due_tasks, RedBeatScheduler.max_due_at, bind,
        Redis.zrangebyscore in Hr.
      unfold datetime_add in Hr. case_bool_decide; cbn in Hr; by simplify_eq.
    + rewrite (bind_inr _ _ w w due Hr). apply collect_no_KeyError.
  - intros due Hd Hkeys. unfold outcome in Hd. rewrite Hr in Hd.
    cbn in Hd. subst r.
    destruct (collect_run self due ∅ w Hkeys) as (w' & Hrun & Hsame & Hidx).
    exists w', (by_name ∅ (omap (loaded w) due)).
    assert (Hnd : ∀ key entry, loaded w key = Some entry →
                               dangling key w = false).
    { intros key entry Hl. destruct (dangling key w) eqn:E; [ | done].
      unfold loaded, outcome in Hl. by rewrite (from_key_dangling key w E) in Hl. }
    split; [ | split; [done | split; [done | split; [exact Hidx | split] ] ] ].
    + unfold RedBeatScheduler.schedule. by rewrite (bind_inr _ _ w w due Hr).
    + intros key Hin Hdang.
      destruct (Hkeys key Hin) as [? | Hk]; [congruence | ].
      destruct (from_key_well_kept key w Hk) as (entry & Hload & _).
      assert (Hl : loaded w key = Some entry).
      { unfold loaded, outcome. by rewrite Hload. }
      assert (Hmem : entry ∈ omap (loaded w) due).
      { apply list_elem_of_omap. eauto. }
      destruct (by_name_covers _ ∅ entry Hmem) as [entry' He'].
      exists entry, entry'. split; [done | ]. split; [done | ].
      apply by_name_origin in He' as [[Hin' Hn] | He'];
        [ | by rewrite lookup_empty in He'].
      split; [done | ]. apply list_elem_of_omap in Hin'. exact Hin'.
    + intros n entry Hl.
      apply by_name_origin in Hl as [[Hin' Hn] | Hl];
        [ | by rewrite lookup_empty in Hl].
      split; [done | ]. apply list_elem_of_omap in Hin' as (key & Hin & Hl).
      exists key. eauto.
Qed.

(** *** The lock *)

(** C7, renewal before work: with a lock handle, [tick] runs the tick of
    the base class from the world in which [PEXPIRE] has already been
    issued on the lock key, so that a lock key that exists has the whole
    [lock_timeout], in milliseconds, to live before any entry is looked
    at, and nothing else of the server differs; without a lock handle,
    [tick] is the tick of the base class from the world as it is. *)
Theorem tick_extends_lock_first {A} (super_tick : RedBeatScheduler.t → M A)
    self w :
  (∀ handle, RedBeatScheduler.lock self = Some handle →
     let renewed :=
       exec (Redis.pexpire (RedBeatScheduler.lock_key self)
               (RedBeatScheduler.lock_timeout self * 1000)) w in
     RedBeatScheduler.tick super_tick self w = super_tick self renewed
     ∧ (Redis.exists_ (RedBeatScheduler.lock_key self) w = true →
        ttl renewed !! RedBeatScheduler.lock_key self
        = Some (RedBeatScheduler.lock_timeout self * 1000)%Z)
     ∧ hashes renewed = hashes w ∧ zsets renewed = zsets w
     ∧ sets renewed = sets w ∧ strs renewed = strs w
     ∧ clock renewed = clock w)
  ∧ (RedBeatScheduler.lock self = None →
     RedBeatScheduler.tick super_tick self w = super_tick self w).
Proof.
  unfold RedBeatScheduler.tick. split.
  - intros handle ->. cbv zeta. split; [reflexivity | ].
    unfold exec, Redis.pexpire. cbn [fst].
    destruct (Redis.exists_ _ w); cbn; [ | done].
    by rewrite lookup_insert_eq.
  - by intros ->.
Qed.

(** *** Reconciliation *)

(** [w'] tracks every static name that [w] tracks, under every key. *)
Definition tracks_at_least (w w' : world) : Prop :=
  ∀ key, members key w ⊆ members key w'.

#[local] Instance tracks_at_least_preorder : PreOrder tracks_at_least.
Proof.
  split; [by intros w key | ].
  intros w1 w2 w3 H12 H23 key. by trans (members key w2).
Qed.

(** A computation that takes no name out of any set. *)
Definition keeps_names {A} (c : M A) : Prop :=
  ∀ w, tracks_at_least w (exec c w).

Lemma keeps_names_same_sets {A} (c : M A) :
  (∀ w, sets (exec c w) = sets w) → keeps_names c.
Proof. intros Hc w key. unfold members. by rewrite Hc. Qed.

Lemma keeps_names_bind {A B} (c : M A) (k : A → M B) :
  keeps_names c → (∀ a, keeps_names (k a)) → keeps_names (bind c k).
Proof.
  intros Hc Hk w. unfold exec, bind. specialize (Hc w). unfold exec in Hc.
  destruct (c w) as [w1 [x | a]]; cbn in *; [done | ].
  trans w1; [done | apply Hk].
Qed.

Lemma keeps_names_for_each {A} (l : list A) (body : A → M unit) :
  (∀ x, keeps_names (body x)) → keeps_names (for_each l body).
Proof.
  intros Hb. induction l as [ | x l IH]; cbn [for_each].
  - by apply keeps_names_same_sets.
  - apply keeps_names_bind; [apply Hb | done].
Qed.

Lemma keeps_names_try_Exception {A} (c : M A) (h : exn → M A) :
  keeps_names c → (∀ x, keeps_names (h x)) → keeps_names (try_Exception c h).
Proof.
  intros Hc Hh w. unfold exec, try_Exception. specialize (Hc w).
  unfold exec in Hc.
  destruct (c w) as [w1 [x | a]]; cbn in *; [ | done].
  trans w1; [done | apply Hh].
Qed.

Lemma keeps_names_key (e : RedBeatSchedulerEntry.t) : keeps_names (key e).
Proof. apply keeps_names_same_sets. intros w. unfold exec. by rewrite key_pure. Qed.

Lemma keeps_names_score (e : RedBeatSchedulerEntry.t) :
  keeps_names (score e).
Proof.
  apply keeps_names_same_sets. intros w. unfold exec. by rewrite score_pure.
Qed.

Lemma keeps_names_init (kw : pydict R) (a : option (App R)) :
  keeps_names (init kw a).
Proof.
  apply keeps_names_same_sets. intros w. unfold init.
  by destruct (bool_decide _).
Qed.

Lemma keeps_names_save (e : RedBeatSchedulerEntry.t) : keeps_names (save e).
Proof.
  unfold save. cbv zeta.
  apply keeps_names_bind; [apply keeps_names_key | intros k].
  apply keeps_names_bind; [by apply keeps_names_same_sets | intros _].
  apply keeps_names_bind; [ | intros c].
  { unfold app_conf. destruct (app e); by apply keeps_names_same_sets. }
  apply keeps_names_bind; [apply keeps_names_score | intros s].
  apply keeps_names_bind; [apply keeps_names_key | intros k'].
  by apply keeps_names_same_sets.
Qed.

Lemma keeps_names_update_from_dict self (dict_ : gmap string (pydict R)) :
  keeps_names (RedBeatScheduler.update_from_dict self dict_).
Proof.
  unfold RedBeatScheduler.update_from_dict.
  apply keeps_names_for_each. intros [name entry].
  apply keeps_names_bind.
  - apply keeps_names_try_Exception.
    + apply keeps_names_bind; [apply keeps_names_init | ].
      intros e. by apply keeps_names_same_sets.
    + intros x. by apply keeps_names_same_sets.
  - intros [e | ]; [apply keeps_names_save | by apply keeps_names_same_sets].
Qed.

Lemma keeps_names_sadd (key : string) (names : list string) :
  keeps_names (Redis.sadd key names).
Proof.
  intros w key'. unfold members, exec, Redis.sadd. cbn.
  destruct (decide (key = key')) as [<- | Hne].
  - rewrite lookup_insert_eq. cbn. set_solver.
  - by rewrite lookup_insert_ne.
Qed.

(** The entry that [setup_schedule] builds for a stale name has no
    application, so its [delete] raises before it reaches the server. *)
Lemma delete_stale_name_raises (name : string) w :
  bind (init {[ "name" := PStr name ]} None) delete w
  = (w, inl (AttributeError "conf")).
Proof.
  assert (Hd : dom ({[ "name" := PStr name ]} : pydict R) ⊆ init_keywords).
  { rewrite dom_singleton_L. unfold init_keywords. set_solver. }
  by rewrite (bind_inr _ _ w w _ (init_run _ None w Hd)).
Qed.

Lemma delete_stale_names_run (names : list string) w :
  for_each names (λ name,
    entry ← init {[ "name" := PStr name ]} None; delete entry) w
  = (w, match names with
        | [] => inr tt
        | _ => inl (AttributeError "conf")
        end).
Proof.
  destruct names as [ | name names]; [reflexivity | ].
  cbn [for_each].
  by rewrite (bind_inl _ _ w w _ (delete_stale_name_raises name w)).
Qed.

(** With a stale name among the tracked ones, [setup_schedule] raises on
    its first [delete] and leaves the server as it found it. *)
Lemma setup_schedule_stale_raises self w :
  RedBeatScheduler.removed self
    (members (REDBEAT_STATICS_KEY (conf (RedBeatScheduler.app self))) w) ≠ ∅ →
  RedBeatScheduler.setup_schedule self w = (w, inl (AttributeError "conf")).
Proof.
  intros Hr. unfold RedBeatScheduler.setup_schedule. cbv zeta.
  rewrite (bind_inr (Redis.smembers _) _ w w _ eq_refl).
  erewrite bind_inl; [reflexivity | ].
  rewrite delete_stale_names_run. f_equal.
  destruct (elements _) eqn:E; [ | done].
  apply elements_empty_inv in E. by apply leibniz_equiv in E.
Qed.

Lemma keeps_names_setup_schedule self :
  keeps_names (RedBeatScheduler.setup_schedule self).
Proof.
  unfold RedBeatScheduler.setup_schedule. cbv zeta.
  apply keeps_names_bind; [by apply keeps_names_same_sets | intros previous].
  apply keeps_names_bind.
  { apply keeps_names_same_sets. intros w. unfold exec.
    by rewrite delete_stale_names_run. }
  intros _. apply keeps_names_bind.
  { apply keeps_names_update_from_dict. }
  intros _. destruct (bool_decide _); [by apply keeps_names_same_sets | ].
  apply keeps_names_bind; [apply keeps_names_update_from_dict | ].
  intros _. apply keeps_names_sadd.
Qed.

(** The world after the reconciliations of [runs], one after the other. *)
Definition reconcile_all (runs : list (@RedBeatScheduler.t R)) (w : world) :
    world :=
  foldl (λ w self, exec (RedBeatScheduler.setup_schedule self) w) w runs.

Lemma reconcile_all_keeps_names runs w :
  tracks_at_least w (reconcile_all runs w).
Proof.
  revert w. induction runs as [ | self runs IH]; intros w; [done | ].
  cbn [reconcile_all foldl].
  trans (exec (RedBeatScheduler.setup_schedule self) w); [ | apply IH].
  apply keeps_names_setup_schedule.
Qed.

End scheduler_properties.

(** * Further properties *)

(** ** Writing and deleting entries *)
Section entry_operations.
Context {R : Type} `{Countable R}
        `{!RecurrenceRule R} `{!Codec R} `{!Runtime R}.
Import RedBeatSchedulerEntry.

Implicit Types (self : @RedBeatSchedulerEntry.t R) (w : world).

Lemma score_of_due_at self w dt :
  outcome (due_at self) w = inr dt →
  outcome (score self) w = inr (to_timestamp dt).
Proof.
  unfold outcome, score, bind, ret.
  destruct (due_at self w) as [w' [x | dt']]; cbn; congruence.
Qed.

Lemma indexed_hset key field value index member w :
  indexed index member (exec (Redis.hset key field value) w)
  = indexed index member w.
Proof. reflexivity. Qed.

(** X1, [save] keeps the score: on an entry with an application, a string
    for a name and a due time, [save] returns; the definition field under
    the entry's key then holds the encoded definition and the index holds
    the timestamp of the due time under that key; every other field of
    every hash (the meta field of the entry among them), every other
    member of every sorted set, and the rest of the server are as
    before. *)
Theorem save_writes_definition_and_score self w a k dt :
  app self = Some a →
  outcome (key self) w = inr k →
  outcome (due_at self) w = inr dt →
  outcome (save self) w = inr tt
  ∧ stored k "definition" (exec (save self) w)
    = Some (dumps (definition_of self))
  ∧ indexed (REDBEAT_SCHEDULE_KEY (conf a)) k (exec (save self) w)
    = Some (to_timestamp dt)
  ∧ (∀ key field,
       (key, field) ≠ (k, "definition") →
       stored key field (exec (save self) w) = stored key field w)
  ∧ (∀ index member,
       (index, member) ≠ (REDBEAT_SCHEDULE_KEY (conf a), k) →
       indexed index member (exec (save self) w) = indexed index member w)
  ∧ sets (exec (save self) w) = sets w
  ∧ strs (exec (save self) w) = strs w
  ∧ ttl (exec (save self) w) = ttl w
  ∧ clock (exec (save self) w) = clock w.
Proof.
  intros Ha Hk Hd. pose proof (score_of_due_at self w dt Hd) as Hs.
  unfold outcome at 1, exec.
  rewrite (save_run self w a k _ Ha Hk Hs). cbn [fst snd].
  split; [done | ]. split.
  { rewrite stored_zadd, stored_hset. by rewrite decide_True. }
  split.
  { rewrite indexed_zadd. by rewrite decide_True. }
  split.
  { intros key field Hne. rewrite stored_zadd, stored_hset.
    rewrite decide_False; [done | ]. intros [<- <-]. done. }
  split; [ | done].
  intros index member Hne. rewrite indexed_zadd, indexed_hset.
  rewrite decide_False; [done | ]. intros [<- <-]. done.
Qed.

(** X2, [reschedule] keeps the score: on such an entry [reschedule]
    returns the entry with [last_run_at] set to the argument, or to the
    clock when the argument is [None] (or otherwise false), and with every
    other attribute as it was; the meta field under the entry's key then
    holds the record of that one [last_run_at], the index holds the
    timestamp of the due time of the updated entry, and the definition
    field, every other hash field and every other member are as before. *)
Theorem reschedule_writes_meta_and_score self (last : pyval R) w a k dt :
  app self = Some a →
  outcome (key self) w = inr k →
  outcome (due_at (at_last_run self last w)) w = inr dt →
  outcome (reschedule self last) w = inr (at_last_run self last w)
  ∧ last_run_at (at_last_run self last w)
    = (if truthy last then last else PDatetime (clock w))
  ∧ stored k "meta" (exec (reschedule self last) w)
    = Some (dumps {[ "last_run_at" :=
                       last_run_at (at_last_run self last w) ]})
  ∧ indexed (REDBEAT_SCHEDULE_KEY (conf a)) k (exec (reschedule self last) w)
    = Some (to_timestamp dt)
  ∧ (∀ key field,
       (key, field) ≠ (k, "meta") →
       stored key field (exec (reschedule self last) w) = stored key field w)
  ∧ (∀ index member,
       (index, member) ≠ (REDBEAT_SCHEDULE_KEY (conf a), k) →
       indexed index member (exec (reschedule self last) w)
       = indexed index member w).
Proof.
  intros Ha Hk Hd.
  pose proof (score_of_due_at _ w dt Hd) as Hs.
  unfold outcome at 1, exec.
  rewrite (reschedule_run self last w a k _ Ha Hk Hs). cbn [fst snd].
  split; [done | ]. split; [done | ]. split.
  { rewrite stored_zadd, stored_hset. by rewrite decide_True. }
  split.
  { rewrite indexed_zadd. by rewrite decide_True. }
  split.
  { intros key field Hne. rewrite stored_zadd, stored_hset.
    rewrite decide_False; [done | ]. intros [<- <-]. done. }
  intros index member Hne. rewrite indexed_zadd, indexed_hset.
  rewrite decide_False; [done | ]. intros [<- <-]. done.
Qed.

(** What [next] does on an entry with a string for a name and a number
    for a count. *)
Lemma next_run self (last : pyval R) w k n :
  outcome (key self) w = inr k →
  total_run_count self = PInt n →
  next self last w
  = (exec (Redis.hset k "meta"
             (dumps {[ "last_run_at" := py_or last (PDatetime (clock w));
                       "total_run_count" := PInt (n + 1) ]})) w,
     inl (NameError "REDBEAT_SCHEDULE_KEY")).
Proof.
  intros Hk Hn. unfold next.
  rewrite (bind_inr _default_now _ w w (PDatetime (clock w)) eq_refl).
  cbv zeta. cbn [name task schedule args kwargs options enabled last_run_at
                 total_run_count app].
  rewrite Hn. cbn [incr].
  rewrite (bind_inr (lift (inr (PInt (n + 1)))) _ w w _ eq_refl).
  match goal with |- context [key ?e] => set (self' := e) end.
  assert (Hk' : outcome (key self') w = inr k) by exact Hk.
  rewrite (bind_inr _ _ w w k (key_run self' w w k Hk')).
  cbn [last_run_at total_run_count self'].
  set (w1 := exec (Redis.hset k "meta" _) w).
  rewrite (bind_inr (Redis.hset k _ _) _ w w1 tt eq_refl).
  rewrite global_schedule_key_unbound.
  by rewrite (bind_inl (raise _) _ w1 w1 (NameError "REDBEAT_SCHEDULE_KEY")
                eq_refl).
Qed.

(** X3, [next] records the run although it raises: on an entry with a
    string for a name and a number for a count, whose key holds a saved
    definition, [next] raises [NameError] and leaves every sorted set as it
    was, and [from_key] then loads the saved definition with the
    [last_run_at] given to [next] (the clock when none is given) and the
    count raised by one. *)
Theorem next_persists_run self (last : pyval R) w k n saved :
  outcome (key self) w = inr k →
  total_run_count self = PInt n →
  stored k "definition" w = Some (dumps (definition_of saved)) →
  outcome (next self last) w = inl (NameError "REDBEAT_SCHEDULE_KEY")
  ∧ zsets (exec (next self last) w) = zsets w
  ∧ outcome (from_key k) (exec (next self last) w)
    = inr (Entry (name saved) (task saved) (schedule saved) (args saved)
             (kwargs saved) (options saved) (enabled saved)
             (if truthy last then last else PDatetime (clock w))
             (PInt (n + 1)) None).
Proof.
  intros Hk Hn Hd. unfold outcome at 1, exec.
  rewrite (next_run self last w k n Hk Hn). cbn [fst snd].
  split; [done | ]. split; [done | ].
  set (v := py_or last (PDatetime (clock w))).
  assert (Hv : truthy v = true).
  { unfold v, py_or. by destruct (truthy last) eqn:E. }
  set (m := {[ "last_run_at" := v; "total_run_count" := PInt (n + 1) ]}
            : pydict R).
  assert (Hdom : dom m ⊆ meta_keys).
  { unfold m, meta_keys. rewrite dom_insert_L, dom_singleton_L. set_solver. }
  assert (Hmeta : stored k "meta" (exec (Redis.hset k "meta" (dumps m)) w)
                  = Some (dumps m)).
  { rewrite stored_hset. by rewrite decide_True. }
  unfold outcome.
  erewrite (from_key_run k _ (definition_of saved) m).
  - cbn [snd]. rewrite (construct_saved saved m _ Hdom). f_equal.
    unfold m. rewrite lookup_insert_eq.
    rewrite lookup_insert_ne, lookup_singleton_eq by done.
    cbn [default from_option id]. f_equal.
    + unfold py_or at 1. by rewrite Hv.
    + unfold py_or. cbn [truthy].
      destruct (Z.eqb (n + 1) 0) eqn:E; cbn [negb]; [ | done].
      apply Z.eqb_eq in E. by rewrite E.
  - rewrite stored_hset. by rewrite decide_False by (by intros [_ ?]).
  - unfold outcome. by rewrite (load_meta_run k _ m Hmeta).
  - rewrite dom_union_L, dom_definition_of.
    unfold meta_keys, init_keywords in *. set_solver.
Qed.

(** *** Entries without an application *)

Lemma from_key_no_app (key0 : string) w0 self :
  outcome (from_key key0) w0 = inr self → app self = None.
Proof.
  unfold outcome, from_key, bind.
  destruct (load_definition key0 w0) as [w1 [x | d]]; [by cbn | ].
  destruct (load_meta key0 w1) as [w2 [x | m]]; [by cbn | ].
  unfold init. destruct (bool_decide _); [ | by cbn].
  cbn. by intros [= <-].
Qed.

Lemma save_without_app self w k :
  app self = None →
  outcome (key self) w = inr k →
  save self w
  = (exec (Redis.hset k "definition" (dumps (definition_of self))) w,
     inl (AttributeError "conf")).
Proof.
  intros Ha Hk. unfold save, app_conf. rewrite Ha. cbv zeta.
  rewrite (bind_inr _ _ w w k (key_run self w w k Hk)).
  set (w1 := exec (Redis.hset k "definition" (dumps (definition_of self))) w).
  rewrite (bind_inr (Redis.hset k _ _) _ w w1 tt eq_refl).
  by rewrite (bind_inl (raise _) _ w1 w1 (AttributeError "conf") eq_refl).
Qed.

Lemma reschedule_without_app self (last : pyval R) w k :
  app self = None →
  outcome (key self) w = inr k →
  reschedule self last w
  = (exec (Redis.hset k "meta"
             (dumps {[ "last_run_at" := py_or last (PDatetime (clock w)) ]}))
       w,
     inl (AttributeError "conf")).
Proof.
  intros Ha Hk. unfold reschedule.
  rewrite (bind_inr _default_now _ w w (PDatetime (clock w)) eq_refl).
  fold (at_last_run self last w). cbv zeta.
  set (self' := at_last_run self last w) in *.
  assert (Hk' : outcome (key self') w = inr k) by exact Hk.
  rewrite (bind_inr _ _ w w k (key_run self' w w k Hk')).
  set (w1 := exec (Redis.hset k "meta" _) w).
  rewrite (bind_inr (Redis.hset k _ _) _ w w1 tt eq_refl).
  unfold app_conf. cbn [app self' at_last_run]. rewrite Ha.
  by rewrite (bind_inl (raise _) _ w1 w1 (AttributeError "conf") eq_refl).
Qed.

Lemma key_fails_pure self w x :
  outcome (key self) w = inl x → key self w = (w, inl x).
Proof.
  intros Hx. pose proof (key_pure self w) as Hp. unfold outcome in Hx.
  destruct (key self w); cbn in *; by subst.
Qed.

(** X4, an entry that [from_key] returns cannot be written back: it has no
    application, so on any server [delete] raises [AttributeError] before
    any command, and [save] and [reschedule] raise without touching a
    sorted set; when the name is a string they raise [AttributeError]
    after the hash field is written, which leaves a definition or a meta
    record that the index does not reflect. *)
Theorem loaded_entry_cannot_be_written (key0 : string) w0 self
    (last : pyval R) w :
  outcome (from_key key0) w0 = inr self →
  delete self w = (w, inl (AttributeError "conf"))
  ∧ (∃ x, outcome (save self) w = inl x)
  ∧ zsets (exec (save self) w) = zsets w
  ∧ (∃ x, outcome (reschedule self last) w = inl x)
  ∧ zsets (exec (reschedule self last) w) = zsets w
  ∧ ∀ k,
      outcome (key self) w = inr k →
      outcome (save self) w = inl (AttributeError "conf")
      ∧ stored k "definition" (exec (save self) w)
        = Some (dumps (definition_of self))
      ∧ outcome (reschedule self last) w = inl (AttributeError "conf")
      ∧ stored k "meta" (exec (reschedule self last) w)
        = Some (dumps {[ "last_run_at" :=
                           (if truthy last then last
                            else PDatetime (clock w)) ]}).
Proof.
  intros Hload. apply from_key_no_app in Hload as Ha.
  split.
  { unfold delete, app_conf. by rewrite Ha. }
  destruct (outcome (key self) w) as [x | k] eqn:Hk.
  - (* the name is no string: the key fails first *)
    assert (Hs : save self w = (w, inl x)).
    { unfold save. cbv zeta.
      by rewrite (bind_inl _ _ w w x (key_fails_pure self w x Hk)). }
    assert (Hr : reschedule self last w = (w, inl x)).
    { unfold reschedule.
      rewrite (bind_inr _default_now _ w w (PDatetime (clock w)) eq_refl).
      cbv zeta. fold (at_last_run self last w).
      assert (Hk' : outcome (key (at_last_run self last w)) w = inl x)
        by exact Hk.
      by rewrite (bind_inl _ _ w w x (key_fails_pure _ w x Hk')). }
    unfold outcome, exec. rewrite Hs, Hr. cbn [fst snd].
    split; [by eexists | ]. split; [done | ].
    split; [by eexists | ]. split; [done | ]. intros k [=].
  - unfold outcome, exec.
    rewrite (save_without_app self w k Ha Hk).
    rewrite (reschedule_without_app self last w k Ha Hk). cbn [fst snd].
    split; [by eexists | ]. split; [done | ].
    split; [by eexists | ]. split; [done | ].
    intros k' [= <-]. split; [done | ]. split.
    { rewrite stored_hset. by rewrite decide_True. }
    split; [done | ]. rewrite stored_hset. by rewrite decide_True.
Qed.

(** *** Deleting *)

Lemma delete_run self w a k :
  app self = Some a →
  outcome (key self) w = inr k →
  delete self w
  = (exec (Redis.delete k)
       (exec (Redis.zrem (REDBEAT_SCHEDULE_KEY (conf a)) k) w),
     inr tt).
Proof.
  intros Ha Hk. unfold delete, app_conf. rewrite Ha.
  rewrite (bind_inr (ret (conf a)) _ w w (conf a) eq_refl).
  rewrite (bind_inr _ _ w w k (key_run self w w k Hk)).
  set (w1 := exec (Redis.zrem (REDBEAT_SCHEDULE_KEY (conf a)) k) w).
  rewrite (bind_inr (Redis.zrem _ k) _ w w1 tt eq_refl).
  by rewrite (bind_inr _ _ w1 w1 k (key_run self w w1 k Hk)).
Qed.

Lemma stored_delete (key key' field : string) w :
  stored key' field (exec (Redis.delete key) w)
  = if decide (key = key') then None else stored key' field w.
Proof.
  unfold stored, exec, Redis.delete. cbn.
  destruct (decide (key = key')) as [<- | Hne].
  - by rewrite lookup_delete_eq.
  - by rewrite lookup_delete_ne.
Qed.

Lemma indexed_delete (key index member : string) w :
  indexed index member (exec (Redis.delete key) w)
  = if decide (key = index) then None else indexed index member w.
Proof.
  unfold indexed, exec, Redis.delete. cbn.
  destruct (decide (key = index)) as [<- | Hne].
  - by rewrite lookup_delete_eq.
  - by rewrite lookup_delete_ne.
Qed.

Lemma stored_zrem index member key field w :
  stored key field (exec (Redis.zrem index member) w) = stored key field w.
Proof. reflexivity. Qed.

(** X5, [delete] removes the entry and nothing else: on an entry with an
    application and a string for a name, [delete] returns; afterwards the
    entry's key holds no field and is not in the index, so that [from_key]
    raises [KeyError] for it; the fields of every other key, and the
    members of every sorted set not named by the entry's key, are as
    before. *)
Theorem delete_removes_entry self w a k :
  app self = Some a →
  outcome (key self) w = inr k →
  outcome (delete self) w = inr tt
  ∧ (∀ field, stored k field (exec (delete self) w) = None)
  ∧ indexed (REDBEAT_SCHEDULE_KEY (conf a)) k (exec (delete self) w) = None
  ∧ from_key k (exec (delete self) w)
    = (exec (delete self) w, inl (KeyError k))
  ∧ (∀ key field,
       key ≠ k →
       stored key field (exec (delete self) w) = stored key field w)
  ∧ (∀ index member,
       index ≠ k →
       (index, member) ≠ (REDBEAT_SCHEDULE_KEY (conf a), k) →
       indexed index member (exec (delete self) w) = indexed index member w).
Proof.
  intros Ha Hk. unfold outcome, exec.
  rewrite (delete_run self w a k Ha Hk). cbn [fst snd].
  split; [done | ].
  assert (Hgone : ∀ field,
            stored k field
              (exec (Redis.delete k)
                 (exec (Redis.zrem (REDBEAT_SCHEDULE_KEY (conf a)) k) w))
            = None).
  { intros field. rewrite stored_delete. by rewrite decide_True. }
  split; [exact Hgone | ]. split.
  { rewrite indexed_delete. case_decide; [done | ].
    rewrite indexed_zrem. by rewrite decide_True. }
  split.
  { apply from_key_dangling. unfold dangling. by rewrite Hgone. }
  split.
  { intros key field Hne. rewrite stored_delete.
    by rewrite decide_False, stored_zrem by done. }
  intros index member Hi Hne. rewrite indexed_delete.
  rewrite decide_False by done. rewrite indexed_zrem.
  rewrite decide_False; [done | ]. intros [<- <-]. done.
Qed.

(** *** Loading *)

Lemma load_meta_raises_ValueError (key : string) w x :
  outcome (load_meta key) w = inl x → x = ValueError.
Proof.
  unfold outcome, load_meta, bind, Redis.hget, lift, ret. cbn.
  destruct (hashes w !! key ≫= _) as [[ | c s] | ]; cbn; try done.
  destruct (loads _); cbn; congruence.
Qed.

Lemma from_key_kept_no_KeyError (key k' : string) w :
  dangling key w = false → outcome (from_key key) w ≠ inl (KeyError k').
Proof.
  intros Hd. unfold outcome, from_key.
  assert (Hdef : ∃ r, load_definition key w = (w, r)
                      ∧ r ≠ inl (KeyError k')).
  { unfold dangling, stored in Hd.
    unfold load_definition, bind, Redis.hget, lift, raise. cbn.
    destruct (hashes w !! key ≫= _) as [[ | c s] | ]; try done.
    destruct (loads _); cbn; eexists; (split; [reflexivity | done]). }
  destruct Hdef as ([x | d] & Hdef & Hne).
  { rewrite (bind_inl _ _ w w x Hdef). cbn. congruence. }
  rewrite (bind_inr _ _ w w d Hdef).
  pose proof (load_meta_pure key w) as Hp.
  pose proof (load_meta_raises_ValueError key w) as Hv.
  unfold exec, outcome in Hp, Hv.
  destruct (load_meta key w) as [w2 [x | m]] eqn:Hm; cbn in Hp, Hv; subst w2.
  { rewrite (bind_inl _ _ w w x Hm). cbn. rewrite (Hv x eq_refl). done. }
  rewrite (bind_inr _ _ w w m Hm). unfold init.
  by destruct (bool_decide _).
Qed.

(** X6, a missing definition is the one cause of [KeyError]: [from_key]
    never changes the server, and it raises [KeyError] exactly when the
    definition field of the key is absent or empty, whatever the meta
    field holds; the error then names the key. *)
Theorem from_key_KeyError_iff_no_definition (key k' : string) w :
  exec (from_key key) w = w
  ∧ (outcome (from_key key) w = inl (KeyError k')
     ↔ dangling key w = true ∧ k' = key).
Proof.
  split; [apply from_key_pure | ]. split.
  - destruct (dangling key w) eqn:Hd.
    + unfold outcome. rewrite (from_key_dangling key w Hd). cbn.
      by intros [= ->].
    + intros Hout. by apply from_key_kept_no_KeyError in Hout.
  - intros [Hd ->]. unfold outcome. by rewrite (from_key_dangling key w Hd).
Qed.

End entry_operations.

(** ** What the scheduler leaves alone *)
Section scheduler_frames.
Context {R : Type} `{Countable R}
        `{!RecurrenceRule R} `{!Codec R} `{!Runtime R}.
Import RedBeatSchedulerEntry.

Implicit Types (self : @RedBeatScheduler.t R) (w : world).

Lemma from_key_run_pure (key : string) w :
  from_key key w = (w, outcome (from_key key) w).
Proof.
  pose proof (from_key_pure key w) as Hp. unfold exec, outcome in *.
  destruct (from_key key w); cbn in *; by subst.
Qed.

Lemma same_but_zsets_trans w1 w2 w3 :
  same_but_zsets w1 w2 → same_but_zsets w2 w3 → same_but_zsets w1 w3.
Proof.
  intros (?&?&?&?&?) (?&?&?&?&?). repeat split; congruence.
Qed.

(** The loop of [schedule], however it ends, changes nothing but sorted
    sets, and what it takes out of the index are keys of its list that
    lack their definition. *)
Lemma collect_only_drops_dangling self (due : list string) :
  ∀ d w,
    same_but_zsets w (exec (RedBeatScheduler.collect self due d) w)
    ∧ ∀ index key,
        indexed index key (exec (RedBeatScheduler.collect self due d) w)
        = indexed index key w
        ∨ (index = REDBEAT_SCHEDULE_KEY (conf (RedBeatScheduler.app self))
           ∧ key ∈ due ∧ dangling key w = true
           ∧ indexed index key (exec (RedBeatScheduler.collect self due d) w)
             = None).
Proof.
  induction due as [ | key0 due IH]; intros d w.
  { split; [done | ]. intros; by left. }
  unfold exec. cbn [RedBeatScheduler.collect].
  set (index0 := REDBEAT_SCHEDULE_KEY (conf (RedBeatScheduler.app self))).
  destruct (outcome (from_key key0) w) as [x | entry] eqn:Hload.
  - pose proof (from_key_run_pure key0 w) as Hrun. rewrite Hload in Hrun.
    destruct x as [k | nm | attr | | | ];
      [ | (* another error leaves the loop *)
          (erewrite bind_inl;
           [ cbn [fst]; split; [done | intros; by left]
           | unfold try_KeyError; by rewrite (bind_inl _ _ w w _ Hrun) ]) .. ].
    + (* the definition is missing *)
      assert (Hd : dangling key0 w = true).
      { destruct (dangling key0 w) eqn:E; [done | ].
        by apply (from_key_kept_no_KeyError key0 k w E) in Hload. }
      set (w1 := exec (Redis.zrem index0 key0) w).
      assert (Hsame : same_but_zsets w w1) by done.
      erewrite bind_inr; cycle 1.
      { unfold try_KeyError.
        rewrite (bind_inl _ _ w w _ Hrun).
        by rewrite (bind_inr (Redis.zrem index0 key0) _ w w1 tt eq_refl). }
      cbv beta iota. destruct (IH d w1) as [Hs Hidx]. unfold exec in Hs, Hidx.
      split; [by apply (same_but_zsets_trans w w1) | ].
      intros index key. destruct (Hidx index key) as [-> | (-> & Hin & Hdk & ->)].
      * unfold w1. rewrite indexed_zrem. case_decide as Hc; [ | by left].
        destruct Hc as [<- <-]. right. split; [done | ].
        split; [by left | ]. by split.
      * right. split; [done | ]. split; [by right | ].
        split; [ | done]. by rewrite <- (dangling_reads key w w1 Hsame).
  - pose proof (from_key_run_pure key0 w) as Hrun. rewrite Hload in Hrun.
    erewrite bind_inr; cycle 1.
    { unfold try_KeyError. by rewrite (bind_inr _ _ w w entry Hrun). }
    cbv beta iota. destruct (RedBeatScheduler.hashable _).
    + destruct (IH (<[name entry := entry]> d) w) as [Hs Hidx].
      unfold exec in Hs, Hidx. split; [done | ].
      intros index key. destruct (Hidx index key) as [-> | (-> & Hin & Hdk & ->)];
        [by left | ].
      right. split; [done | ]. split; [by right | ]. by split.
    + cbn [fst]. split; [done | ]. intros; by left.
Qed.

Lemma due_tasks_pure self w :
  ∃ r, RedBeatScheduler.due_tasks self w = (w, r).
Proof.
  unfold RedBeatScheduler.due_tasks, RedBeatScheduler.max_due_at, bind,
    Redis.zrangebyscore.
  destruct (datetime_add _ _); eauto.
Qed.

(** X7, [schedule] only ever drops dangling keys: however [schedule] ends,
    also when an entry fails to load and the error leaves it, the hashes,
    sets, lock keys, expiries and the clock are as before, the members of
    every sorted set keep their scores, and the one change is that keys of
    the index whose definition field is absent or empty may be gone from
    the index. *)
Theorem schedule_only_drops_dangling_keys self w (index key : string) :
  same_but_zsets w (exec (RedBeatScheduler.schedule self) w)
  ∧ (indexed index key (exec (RedBeatScheduler.schedule self) w)
     = indexed index key w
     ∨ (index = REDBEAT_SCHEDULE_KEY (conf (RedBeatScheduler.app self))
        ∧ dangling key w = true
        ∧ is_Some (indexed index key w)
        ∧ indexed index key (exec (RedBeatScheduler.schedule self) w)
          = None)).
Proof.
  unfold exec, RedBeatScheduler.schedule.
  destruct (due_tasks_pure self w) as [[x | due] Hdue].
  { rewrite (bind_inl _ _ w w x Hdue). cbn [fst]. split; [done | by left]. }
  rewrite (bind_inr _ _ w w due Hdue).
  destruct (collect_only_drops_dangling self due ∅ w) as [Hs Hidx].
  unfold exec in Hs, Hidx. split; [exact Hs | ].
  destruct (Hidx index key) as [-> | (-> & Hin & Hd & Hnone)]; [by left | ].
  destruct (indexed _ key w) as [score | ] eqn:Hw.
  - right. split; [done | ]. split; [done | ]. split; [by eexists | done].
  - left. by rewrite Hnone.
Qed.

End scheduler_frames.

(** ** Installing the static entries *)

(** The last value that [hit] gives an item of [l], over [acc] when it
    gives none: what a sequence of overwriting writes leaves. *)
Definition overlay {A B} (hit : A → option B) (l : list A) (acc : option B) :
    option B :=
  foldl (λ acc x, match hit x with Some v => Some v | None => acc end) acc l.

Lemma overlay_alt {A B} (hit : A → option B) (l : list A) (acc : option B) :
  overlay hit l acc
  = match overlay hit l None with Some v => Some v | None => acc end.
Proof.
  revert acc. induction l as [ | x l IH] using rev_ind; intros acc; [done | ].
  unfold overlay in *. rewrite !foldl_app. cbn.
  destruct (hit x); [done | ]. apply IH.
Qed.

Lemma overlay_none {A B} (hit : A → option B) (l : list A) (acc : option B) :
  (∀ x, x ∈ l → hit x = None) → overlay hit l acc = acc.
Proof.
  revert acc. induction l as [ | x l IH]; intros acc Hn; [done | ].
  cbn. rewrite (Hn x) by (by left). apply IH. intros y Hy. apply Hn. by right.
Qed.

Lemma overlay_unique {A B} (hit : A → option B) (l : list A) (acc : option B)
    x v :
  x ∈ l → hit x = Some v → (∀ y, y ∈ l → is_Some (hit y) → y = x) →
  overlay hit l acc = Some v.
Proof.
  revert acc. induction l as [ | y l IH] using rev_ind; intros acc Hin Hx Hu.
  { by apply elem_of_nil in Hin. }
  unfold overlay in *. rewrite foldl_app. cbn.
  destruct (hit y) as [v' | ] eqn:Hy.
  - assert (y = x) as ->.
    { apply Hu; [apply elem_of_app; right; by left | by rewrite Hy]. }
    congruence.
  - apply IH.
    + apply elem_of_app in Hin as [Hin | Hin]; [done | ].
      apply list_elem_of_singleton in Hin as ->. congruence.
    + done.
    + intros z Hz. apply Hu. apply elem_of_app. by left.
Qed.

Section reconciliation_installs.
Context {R : Type} `{Countable R}
        `{!RecurrenceRule R} `{!Codec R} `{!Runtime R}.
Import RedBeatSchedulerEntry.

Implicit Types (self : @RedBeatScheduler.t R) (w : world)
  (entry : pydict R) (name : string).

(** The entry that the scheduler builds for a configured name, when the
    clock reads [now]. *)
Definition made self name entry (now : Z) : RedBeatSchedulerEntry.t :=
  construct (<["name" := PStr name]> entry) (Some (RedBeatScheduler.app self))
    (PDatetime now).

(** A configured dict whose keys are all keywords of the constructor. *)
Definition constructible entry : Prop := dom entry ⊆ init_keywords.

#[global] Instance constructible_dec entry : Decision (constructible entry).
Proof. unfold constructible. apply _. Defined.

(** The due time of an entry when the clock reads [now]. *)
Definition due_time (e : RedBeatSchedulerEntry.t) (now : Z) : exn + Z :=
  match schedule e with
  | PRule r =>
      match last_run_at e with
      | PDatetime last => datetime_add last (remaining_estimate r now last)
      | _ => inl TypeError
      end
  | _ => inl (AttributeError "remaining_estimate")
  end.

(** The score of an entry when the clock reads [now], if it has one. *)
Definition timestamp (e : RedBeatSchedulerEntry.t) (now : Z) : option Z :=
  match due_time e now with
  | inr dt => Some (to_timestamp dt)
  | inl _ => None
  end.

Lemma due_at_time (e : RedBeatSchedulerEntry.t) w :
  due_at e w = (w, due_time e (clock w)).
Proof.
  unfold due_at, due_time. destruct (schedule e); try reflexivity.
  destruct (last_run_at e); reflexivity.
Qed.

Lemma score_timestamp (e : RedBeatSchedulerEntry.t) w s :
  timestamp e (clock w) = Some s → outcome (score e) w = inr s.
Proof.
  unfold timestamp, outcome, score, bind. rewrite due_at_time.
  destruct (due_time e (clock w)); cbn; congruence.
Qed.

Lemma maybe_entry_run self name entry w :
  RedBeatScheduler._maybe_entry self name entry w
  = (w, if decide (constructible entry)
        then inr (made self name entry (clock w)) else inl TypeError).
Proof.
  unfold RedBeatScheduler._maybe_entry, init, constructible.
  assert (Hiff : dom (<["name" := PStr name]> entry) ⊆ init_keywords
                 ↔ dom entry ⊆ init_keywords).
  { rewrite dom_insert_L. unfold init_keywords. set_solver. }
  destruct (decide (dom entry ⊆ init_keywords)) as [Hc | Hc].
  - rewrite bool_decide_eq_true_2 by (by apply Hiff). reflexivity.
  - rewrite bool_decide_eq_false_2; [reflexivity | ]. by rewrite Hiff.
Qed.

Lemma key_made self name entry now w :
  outcome (key (made self name entry now)) w
  = inr (REDBEAT_KEY_PREFIX (conf (RedBeatScheduler.app self)) ++ name).
Proof.
  unfold outcome, key, made, construct. cbn [RedBeatSchedulerEntry.name app].
  by rewrite lookup_insert_eq.
Qed.

(** What the loop of [update_from_dict] does with one item. *)
Definition install self (now : Z) w (item : string * pydict R) : world :=
  if decide (constructible item.2)
  then exec (save (made self item.1 item.2 now)) w
  else w.

(** Every item that can be constructed has a score. *)
Definition scorable self (now : Z) (l : list (string * pydict R)) : Prop :=
  ∀ item, item ∈ l → constructible item.2 →
    is_Some (timestamp (made self item.1 item.2 now) now).

Lemma install_run self now w name entry s :
  clock w = now →
  constructible entry →
  timestamp (made self name entry now) now = Some s →
  save (made self name entry now) w
  = (exec (Redis.zadd
             (REDBEAT_SCHEDULE_KEY (conf (RedBeatScheduler.app self))) s
             (REDBEAT_KEY_PREFIX (conf (RedBeatScheduler.app self)) ++ name))
       (exec (Redis.hset
                (REDBEAT_KEY_PREFIX (conf (RedBeatScheduler.app self)) ++ name)
                "definition"
                (dumps (definition_of (made self name entry now)))) w),
     inr tt).
Proof.
  intros Hnow Hc Hs.
  apply (save_run _ w (RedBeatScheduler.app self)); [done | apply key_made | ].
  apply score_timestamp. by rewrite Hnow.
Qed.

Lemma install_clock self now w item :
  clock w = now → scorable self now [item] → clock (install self now w item) = now.
Proof.
  intros Hnow Hs. unfold install. destruct item as [name entry]. cbn [fst snd].
  case_decide as Hc; [ | done].
  destruct (Hs (name, entry) ltac:(by left) Hc) as [s Hts]. cbn [fst snd] in Hts.
  unfold exec. by rewrite (install_run self now w name entry s Hnow Hc Hts).
Qed.

Lemma update_from_dict_items self now (l : list (string * pydict R)) :
  ∀ w,
    clock w = now → scorable self now l →
    for_each l (λ '(name, entry),
      made ← try_Exception
                (e ← RedBeatScheduler._maybe_entry self name entry;
                 ret (Some e))
                (λ exc, ret None);
      match made with
      | None => ret tt
      | Some entry => save entry
      end) w
    = (foldl (install self now) w l, inr tt)
    ∧ clock (foldl (install self now) w l) = now.
Proof.
  induction l as [ | [name entry] l IH]; intros w Hnow Hs; [done | ].
  cbn [for_each foldl].
  assert (Hs1 : scorable self now [(name, entry)]).
  { intros item Hin. apply list_elem_of_singleton in Hin as ->.
    apply Hs. by left. }
  assert (Hs2 : scorable self now l).
  { intros item Hin. apply Hs. by right. }
  pose proof (install_clock self now w (name, entry) Hnow Hs1) as Hclock.
  assert (Hbody :
    bind (try_Exception
            (e ← RedBeatScheduler._maybe_entry self name entry; ret (Some e))
            (λ exc, ret None))
         (λ made, match made with
                  | None => ret tt
                  | Some entry => save entry
                  end) w
    = (install self now w (name, entry), inr tt)).
  { assert (Htry :
      try_Exception
        (e ← RedBeatScheduler._maybe_entry self name entry; ret (Some e))
        (λ exc, ret None) w
      = (w, inr (if decide (constructible entry)
                 then Some (made self name entry now) else None))).
    { unfold try_Exception. cbv beta. unfold bind.
      rewrite maybe_entry_run, Hnow. by destruct (decide _). }
    rewrite (bind_inr _ _ w w _ Htry). unfold install. cbn [fst snd].
    destruct (decide (constructible entry)) as [Hc | Hc]; [ | reflexivity].
    destruct (Hs1 (name, entry) ltac:(by left) Hc) as [s Hts].
    cbn [fst snd] in Hts. unfold exec.
    by rewrite (install_run self now w name entry s Hnow Hc Hts). }
  rewrite (bind_inr _ _ w _ tt Hbody).
  apply IH; done.
Qed.

(** The definition, and the score, that the installation of an item
    leaves under a key. *)
Definition hit_definition self (now : Z) (key field : string)
    (item : string * pydict R) : option string :=
  if decide (constructible item.2
             ∧ key = REDBEAT_KEY_PREFIX (conf (RedBeatScheduler.app self))
                     ++ item.1
             ∧ field = "definition")
  then Some (dumps (definition_of (made self item.1 item.2 now)))
  else None.

Definition hit_score self (now : Z) (index member : string)
    (item : string * pydict R) : option Z :=
  if decide (constructible item.2
             ∧ index = REDBEAT_SCHEDULE_KEY (conf (RedBeatScheduler.app self))
             ∧ member = REDBEAT_KEY_PREFIX (conf (RedBeatScheduler.app self))
                        ++ item.1)
  then timestamp (made self item.1 item.2 now) now
  else None.

Lemma install_pointwise self now w item :
  clock w = now → scorable self now [item] →
  (∀ key field,
     stored key field (install self now w item)
     = match hit_definition self now key field item with
       | Some v => Some v
       | None => stored key field w
       end)
  ∧ (∀ index member,
       indexed index member (install self now w item)
       = match hit_score self now index member item with
         | Some v => Some v
         | None => indexed index member w
         end)
  ∧ sets (install self now w item) = sets w
  ∧ strs (install self now w item) = strs w
  ∧ ttl (install self now w item) = ttl w.
Proof.
  intros Hnow Hs. destruct item as [name entry].
  unfold install, hit_definition, hit_score. cbn [fst snd].
  destruct (decide (constructible entry)) as [Hc | Hc].
  - destruct (Hs (name, entry) ltac:(by left) Hc) as [s Hts].
    cbn [fst snd] in Hts. unfold exec at 1 2 3 4 5.
    rewrite (install_run self now w name entry s Hnow Hc Hts). cbn [fst].
    split; [ | split; [ | done] ].
    + intros key field. rewrite stored_zadd, stored_hset.
      repeat case_decide; try done; exfalso; naive_solver.
    + intros index member. rewrite indexed_zadd. rewrite Hts.
      repeat case_decide; try done; exfalso; naive_solver.
  - split; [ | split; [ | done] ].
    + intros key field. rewrite decide_False; [done | ]. by intros [? _].
    + intros index member. rewrite decide_False; [done | ]. by intros [? _].
Qed.

Lemma installs_pointwise self now (l : list (string * pydict R)) :
  ∀ w,
    clock w = now → scorable self now l →
    (∀ key field,
       stored key field (foldl (install self now) w l)
       = overlay (hit_definition self now key field) l (stored key field w))
    ∧ (∀ index member,
         indexed index member (foldl (install self now) w l)
         = overlay (hit_score self now index member) l
             (indexed index member w))
    ∧ sets (foldl (install self now) w l) = sets w
    ∧ strs (foldl (install self now) w l) = strs w
    ∧ ttl (foldl (install self now) w l) = ttl w.
Proof.
  induction l as [ | item l IH]; intros w Hnow Hs; [done | ].
  assert (Hs1 : scorable self now [item]).
  { intros x Hin. apply list_elem_of_singleton in Hin as ->.
    apply Hs. by left. }
  assert (Hs2 : scorable self now l).
  { intros x Hin. apply Hs. by right. }
  destruct (install_pointwise self now w item Hnow Hs1)
    as (Hst & Hix & Hsets & Hstrs & Httl).
  destruct (IH (install self now w item)
              (install_clock self now w item Hnow Hs1) Hs2)
    as (Hst' & Hix' & Hsets' & Hstrs' & Httl').
  cbn [foldl]. split; [ | split; [ | split; [ | split] ] ].
  - intros key field. by rewrite Hst', Hst.
  - intros index member. by rewrite Hix', Hix.
  - congruence.
  - congruence.
  - congruence.
Qed.

(** Every entry of a configuration that can be constructed has a score
    when the clock reads [now]. *)
Definition all_scorable self (now : Z) (dict_ : gmap string (pydict R)) :
    Prop :=
  ∀ name entry, dict_ !! name = Some entry → constructible entry →
    is_Some (timestamp (made self name entry now) now).

Lemma all_scorable_items self now (dict_ : gmap string (pydict R)) :
  all_scorable self now dict_ → scorable self now (map_to_list dict_).
Proof.
  intros Ha [name entry] Hin Hc. apply elem_of_map_to_list in Hin.
  by apply (Ha name entry).
Qed.

Lemma update_from_dict_run self (dict_ : gmap string (pydict R)) w :
  all_scorable self (clock w) dict_ →
  RedBeatScheduler.update_from_dict self dict_ w
  = (foldl (install self (clock w)) w (map_to_list dict_), inr tt).
Proof.
  intros Ha. unfold RedBeatScheduler.update_from_dict.
  by apply update_from_dict_items, all_scorable_items.
Qed.

(** In the items of a configuration, a key is hit by the item of one
    name. *)
Lemma hit_definition_configured self now (dict_ : gmap string (pydict R))
    name entry (acc : option string) :
  dict_ !! name = Some entry → constructible entry →
  overlay (hit_definition self now
             (REDBEAT_KEY_PREFIX (conf (RedBeatScheduler.app self)) ++ name)
             "definition")
    (map_to_list dict_) acc
  = Some (dumps (definition_of (made self name entry now))).
Proof.
  intros Hl Hc.
  apply (overlay_unique _ _ _ (name, entry)).
  - by apply elem_of_map_to_list.
  - unfold hit_definition. cbn [fst snd]. by rewrite decide_True.
  - intros [name' entry'] Hin Hhit. apply elem_of_map_to_list in Hin.
    unfold hit_definition in Hhit. cbn [fst snd] in Hhit.
    case_decide as Hd; [ | by destruct Hhit as [? [=]] ].
    destruct Hd as (_ & Heq & _). apply (inj (String.append _)) in Heq.
    subst name'. congruence.
Qed.

Lemma hit_score_configured self now (dict_ : gmap string (pydict R))
    name entry (acc : option Z) :
  dict_ !! name = Some entry → constructible entry →
  is_Some (timestamp (made self name entry now) now) →
  overlay (hit_score self now
             (REDBEAT_SCHEDULE_KEY (conf (RedBeatScheduler.app self)))
             (REDBEAT_KEY_PREFIX (conf (RedBeatScheduler.app self)) ++ name))
    (map_to_list dict_) acc
  = timestamp (made self name entry now) now.
Proof.
  intros Hl Hc [s Hs]. rewrite Hs.
  apply (overlay_unique _ _ _ (name, entry)).
  - by apply elem_of_map_to_list.
  - unfold hit_score. cbn [fst snd]. by rewrite decide_True.
  - intros [name' entry'] Hin Hhit. apply elem_of_map_to_list in Hin.
    unfold hit_score in Hhit. cbn [fst snd] in Hhit.
    case_decide as Hd; [ | by destruct Hhit as [? [=]] ].
    destruct Hd as (_ & _ & Heq). apply (inj (String.append _)) in Heq.
    subst name'. congruence.
Qed.

Lemma hit_definition_elsewhere self now (dict_ : gmap string (pydict R))
    (key field : string) (acc : option string) :
  (field ≠ "definition"
   ∨ ∀ name entry, dict_ !! name = Some entry → constructible entry →
       key ≠ REDBEAT_KEY_PREFIX (conf (RedBeatScheduler.app self)) ++ name) →
  overlay (hit_definition self now key field) (map_to_list dict_) acc = acc.
Proof.
  intros Hout. apply overlay_none. intros [name entry] Hin.
  apply elem_of_map_to_list in Hin. unfold hit_definition. cbn [fst snd].
  rewrite decide_False; [done | ]. intros (Hc & -> & ->).
  destruct Hout as [? | Hout]; [done | ]. by apply (Hout name entry).
Qed.

Lemma hit_score_elsewhere self now (dict_ : gmap string (pydict R))
    (index member : string) (acc : option Z) :
  (index ≠ REDBEAT_SCHEDULE_KEY (conf (RedBeatScheduler.app self))
   ∨ ∀ name entry, dict_ !! name = Some entry → constructible entry →
       member ≠ REDBEAT_KEY_PREFIX (conf (RedBeatScheduler.app self))
                ++ name) →
  overlay (hit_score self now index member) (map_to_list dict_) acc = acc.
Proof.
  intros Hout. apply overlay_none. intros [name entry] Hin.
  apply elem_of_map_to_list in Hin. unfold hit_score. cbn [fst snd].
  rewrite decide_False; [done | ]. intros (Hc & -> & ->).
  destruct Hout as [? | Hout]; [done | ]. by apply (Hout name entry).
Qed.

(** X8, [update_from_dict] stores what can be constructed: when every
    entry of the dict whose keys are keywords of the constructor has a
    score, [update_from_dict] returns; for each such entry the definition
    of the entry built for it is stored under prefix + name and the index
    holds its score; an entry with a key that is no keyword is skipped and
    what its key holds stays; every other hash field (every meta field
    among them), every other member of a sorted set and the rest of the
    server are as before. *)
Theorem update_from_dict_installs self (dict_ : gmap string (pydict R)) w :
  all_scorable self (clock w) dict_ →
  outcome (RedBeatScheduler.update_from_dict self dict_) w = inr tt
  ∧ (∀ name entry,
       dict_ !! name = Some entry → constructible entry →
       stored (REDBEAT_KEY_PREFIX (conf (RedBeatScheduler.app self)) ++ name)
         "definition" (exec (RedBeatScheduler.update_from_dict self dict_) w)
       = Some (dumps (definition_of (made self name entry (clock w))))
       ∧ indexed (REDBEAT_SCHEDULE_KEY (conf (RedBeatScheduler.app self)))
           (REDBEAT_KEY_PREFIX (conf (RedBeatScheduler.app self)) ++ name)
           (exec (RedBeatScheduler.update_from_dict self dict_) w)
         = timestamp (made self name entry (clock w)) (clock w))
  ∧ (∀ key field,
       (field ≠ "definition"
        ∨ ∀ name entry, dict_ !! name = Some entry → constructible entry →
            key ≠ REDBEAT_KEY_PREFIX (conf (RedBeatScheduler.app self))
                  ++ name) →
       stored key field (exec (RedBeatScheduler.update_from_dict self dict_) w)
       = stored key field w)
  ∧ (∀ index member,
       (index ≠ REDBEAT_SCHEDULE_KEY (conf (RedBeatScheduler.app self))
        ∨ ∀ name entry, dict_ !! name = Some entry → constructible entry →
            member ≠ REDBEAT_KEY_PREFIX (conf (RedBeatScheduler.app self))
                     ++ name) →
       indexed index member
         (exec (RedBeatScheduler.update_from_dict self dict_) w)
       = indexed index member w)
  ∧ sets (exec (RedBeatScheduler.update_from_dict self dict_) w) = sets w
  ∧ strs (exec (RedBeatScheduler.update_from_dict self dict_) w) = strs w
  ∧ ttl (exec (RedBeatScheduler.update_from_dict self dict_) w) = ttl w
  ∧ clock (exec (RedBeatScheduler.update_from_dict self dict_) w) = clock w.
Proof.
  intros Ha. unfold outcome, exec.
  rewrite (update_from_dict_run self dict_ w Ha). cbn [fst snd].
  pose proof (all_scorable_items self _ dict_ Ha) as Hs.
  destruct (installs_pointwise self (clock w) (map_to_list dict_) w eq_refl Hs)
    as (Hst & Hix & Hsets & Hstrs & Httl).
  destruct (update_from_dict_items self (clock w) (map_to_list dict_) w
              eq_refl Hs) as [_ Hclock].
  split; [done | ]. split.
  { intros name entry Hl Hc. split.
    - rewrite Hst. by apply hit_definition_configured.
    - rewrite Hix. apply hit_score_configured; [done | done | ].
      by apply (Ha name entry). }
  split.
  { intros key field Hout. rewrite Hst. by apply hit_definition_elsewhere. }
  split.
  { intros index member Hout. rewrite Hix. by apply hit_score_elsewhere. }
  done.
Qed.

End reconciliation_installs.

(** ** Reconciliation when no tracked name is stale *)

Section reconciliation_settles.
Context {R : Type} `{Countable R}
        `{!RecurrenceRule R} `{!Codec R} `{!Runtime R}.
Import RedBeatSchedulerEntry.

Implicit Types (self : @RedBeatScheduler.t R) (w : world)
  (entry : pydict R) (name : string).

(** The server that [setup_schedule] leaves when it deletes nothing: the
    default entries installed, then the configured ones, then their names
    added to the static ones. *)
Definition settled self w : world :=
  let c := conf (RedBeatScheduler.app self) in
  let w1 := foldl (install self (clock w)) w
              (map_to_list (RedBeatScheduler.default_entries self)) in
  if bool_decide (CELERYBEAT_SCHEDULE c = ∅) then w1
  else exec (Redis.sadd (REDBEAT_STATICS_KEY c)
               (map_to_list (CELERYBEAT_SCHEDULE c)).*1)
         (foldl (install self (clock w)) w1
            (map_to_list (CELERYBEAT_SCHEDULE c))).

(** No tracked name is stale. *)
Definition nothing_stale self w : Prop :=
  members (REDBEAT_STATICS_KEY (conf (RedBeatScheduler.app self))) w
  ⊆ dom (CELERYBEAT_SCHEDULE (conf (RedBeatScheduler.app self))).

Lemma nothing_stale_removed self w :
  nothing_stale self w →
  RedBeatScheduler.removed self
    (members (REDBEAT_STATICS_KEY (conf (RedBeatScheduler.app self))) w) = ∅.
Proof.
  unfold nothing_stale, RedBeatScheduler.removed. intros Hs.
  apply leibniz_equiv. set_solver.
Qed.

Lemma installs_clock self (d : gmap string (pydict R)) w :
  all_scorable self (clock w) d →
  clock (foldl (install self (clock w)) w (map_to_list d)) = clock w.
Proof.
  intros Ha.
  by destruct (update_from_dict_items self (clock w) (map_to_list d) w
                 eq_refl (all_scorable_items self _ d Ha)) as [_ Hc].
Qed.

Lemma setup_schedule_run self w :
  nothing_stale self w →
  all_scorable self (clock w) (RedBeatScheduler.default_entries self) →
  all_scorable self (clock w)
    (CELERYBEAT_SCHEDULE (conf (RedBeatScheduler.app self))) →
  RedBeatScheduler.setup_schedule self w = (settled self w, inr tt).
Proof.
  intros Hs Hd Hc. unfold RedBeatScheduler.setup_schedule, settled. cbv zeta.
  rewrite (bind_inr (Redis.smembers _) _ w w _ eq_refl).
  erewrite bind_inr; cycle 1.
  { rewrite delete_stale_names_run.
    change (default ∅ (sets w !! ?k)) with (members k w).
    rewrite (nothing_stale_removed self w Hs), elements_empty. reflexivity. }
  unfold RedBeatScheduler.install_default_entries.
  erewrite bind_inr; cycle 1.
  { apply (update_from_dict_run self _ w Hd). }
  destruct (bool_decide _); [reflexivity | ].
  erewrite bind_inr; cycle 1.
  { rewrite update_from_dict_run; rewrite installs_clock by done;
      [reflexivity | done]. }
  reflexivity.
Qed.

Lemma list_to_set_keys (d : gmap string (pydict R)) :
  (list_to_set (map_to_list d).*1 : gset string) = dom d.
Proof.
  apply set_eq. intros name.
  rewrite elem_of_list_to_set, list_elem_of_fmap, elem_of_dom. split.
  - intros [[name' entry] [-> Hin]]. apply elem_of_map_to_list in Hin.
    by exists entry.
  - intros [entry Hl]. exists (name, entry).
    split; [done | by apply elem_of_map_to_list].
Qed.

(** What the settled server holds, field by field. *)
Lemma settled_pointwise self w :
  all_scorable self (clock w) (RedBeatScheduler.default_entries self) →
  all_scorable self (clock w)
    (CELERYBEAT_SCHEDULE (conf (RedBeatScheduler.app self))) →
  (∀ key field,
     stored key field (settled self w)
     = overlay (hit_definition self (clock w) key field)
         (map_to_list (CELERYBEAT_SCHEDULE (conf (RedBeatScheduler.app self))))
         (overlay (hit_definition self (clock w) key field)
            (map_to_list (RedBeatScheduler.default_entries self))
            (stored key field w)))
  ∧ (∀ index member,
       indexed index member (settled self w)
       = overlay (hit_score self (clock w) index member)
           (map_to_list
              (CELERYBEAT_SCHEDULE (conf (RedBeatScheduler.app self))))
           (overlay (hit_score self (clock w) index member)
              (map_to_list (RedBeatScheduler.default_entries self))
              (indexed index member w)))
  ∧ (∀ key,
       members key (settled self w)
       = if decide
              (key = REDBEAT_STATICS_KEY (conf (RedBeatScheduler.app self)))
         then dom (CELERYBEAT_SCHEDULE (conf (RedBeatScheduler.app self)))
              ∪ members key w
         else members key w)
  ∧ strs (settled self w) = strs w
  ∧ ttl (settled self w) = ttl w
  ∧ clock (settled self w) = clock w.
Proof.
  intros Hd Hc. unfold settled. cbv zeta.
  pose proof (installs_clock self _ w Hd) as Hclock1.
  destruct (installs_pointwise self (clock w) _ w eq_refl
              (all_scorable_items self _ _ Hd))
    as (Hst1 & Hix1 & Hsets1 & Hstrs1 & Httl1).
  set (w1 := foldl (install self (clock w)) w
               (map_to_list (RedBeatScheduler.default_entries self))) in *.
  destruct (installs_pointwise self (clock w) _ w1 Hclock1
              (all_scorable_items self _ _ Hc))
    as (Hst2 & Hix2 & Hsets2 & Hstrs2 & Httl2).
  assert (Hclock2 :
    clock (foldl (install self (clock w)) w1
             (map_to_list
                (CELERYBEAT_SCHEDULE (conf (RedBeatScheduler.app self)))))
    = clock w).
  { pose proof (installs_clock self
                  (CELERYBEAT_SCHEDULE (conf (RedBeatScheduler.app self)))
                  w1) as Hw1.
    rewrite Hclock1 in Hw1. by apply Hw1. }
  case_bool_decide as He.
  - rewrite He, map_to_list_empty.
    split; [ | split; [ | split; [ | done] ] ].
    + intros key field. by rewrite Hst1.
    + intros index member. by rewrite Hix1.
    + intros key. unfold members. rewrite Hsets1, dom_empty_L.
      case_decide; [ | done]. apply leibniz_equiv. set_solver.
  - split; [ | split; [ | split; [ | unfold exec, Redis.sadd; cbn;
            by rewrite Hstrs2, Httl2, Hstrs1, Httl1, Hclock2] ] ].
    + intros key field. unfold stored at 1. unfold exec, Redis.sadd.
      cbn [fst hashes]. fold (stored key field
        (foldl (install self (clock w)) w1
           (map_to_list
              (CELERYBEAT_SCHEDULE (conf (RedBeatScheduler.app self)))))).
      by rewrite Hst2, Hst1.
    + intros index member. unfold indexed at 1. unfold exec, Redis.sadd.
      cbn [fst zsets]. fold (indexed index member
        (foldl (install self (clock w)) w1
           (map_to_list
              (CELERYBEAT_SCHEDULE (conf (RedBeatScheduler.app self)))))).
      by rewrite Hix2, Hix1.
    + intros key. unfold members, exec, Redis.sadd. cbn [fst sets].
      rewrite Hsets2, Hsets1, list_to_set_keys.
      case_decide as Hk.
      * subst key. by rewrite lookup_insert_eq.
      * by rewrite lookup_insert_ne.
Qed.

(** The settled server meets the conditions under which it was reached. *)
Lemma settled_nothing_stale self w :
  all_scorable self (clock w) (RedBeatScheduler.default_entries self) →
  all_scorable self (clock w)
    (CELERYBEAT_SCHEDULE (conf (RedBeatScheduler.app self))) →
  nothing_stale self w → nothing_stale self (settled self w).
Proof.
  intros Hd Hc Hs. unfold nothing_stale in *.
  destruct (settled_pointwise self w Hd Hc) as (_ & _ & Hm & _).
  rewrite Hm, decide_True by done. set_solver.
Qed.

(** X9, a reconciliation with no stale name installs the configuration:
    when every tracked static name is still configured, and the default
    and the configured entries that can be constructed have a score,
    [setup_schedule] returns; the static names are then exactly the
    configured ones and no other set changes; each configured entry that
    can be constructed has its definition stored under prefix + name and
    its score in the index; no field of a hash other than a definition
    (so no meta field) is written; strings, expiries and the clock are as
    before. *)
Theorem setup_schedule_installs_configuration self w :
  nothing_stale self w →
  all_scorable self (clock w) (RedBeatScheduler.default_entries self) →
  all_scorable self (clock w)
    (CELERYBEAT_SCHEDULE (conf (RedBeatScheduler.app self))) →
  outcome (RedBeatScheduler.setup_schedule self) w = inr tt
  ∧ members (REDBEAT_STATICS_KEY (conf (RedBeatScheduler.app self)))
      (exec (RedBeatScheduler.setup_schedule self) w)
    = dom (CELERYBEAT_SCHEDULE (conf (RedBeatScheduler.app self)))
  ∧ (∀ key,
       key ≠ REDBEAT_STATICS_KEY (conf (RedBeatScheduler.app self)) →
       members key (exec (RedBeatScheduler.setup_schedule self) w)
       = members key w)
  ∧ (∀ name entry,
       CELERYBEAT_SCHEDULE (conf (RedBeatScheduler.app self)) !! name
       = Some entry →
       constructible entry →
       stored (REDBEAT_KEY_PREFIX (conf (RedBeatScheduler.app self)) ++ name)
         "definition" (exec (RedBeatScheduler.setup_schedule self) w)
       = Some (dumps (definition_of (made self name entry (clock w))))
       ∧ indexed (REDBEAT_SCHEDULE_KEY (conf (RedBeatScheduler.app self)))
           (REDBEAT_KEY_PREFIX (conf (RedBeatScheduler.app self)) ++ name)
           (exec (RedBeatScheduler.setup_schedule self) w)
         = timestamp (made self name entry (clock w)) (clock w))
  ∧ (∀ key field,
       field ≠ "definition" →
       stored key field (exec (RedBeatScheduler.setup_schedule self) w)
       = stored key field w)
  ∧ strs (exec (RedBeatScheduler.setup_schedule self) w) = strs w
  ∧ ttl (exec (RedBeatScheduler.setup_schedule self) w) = ttl w
  ∧ clock (exec (RedBeatScheduler.setup_schedule self) w) = clock w.
Proof.
  intros Hs Hd Hc. unfold outcome, exec.
  rewrite (setup_schedule_run self w Hs Hd Hc). cbn [fst snd].
  destruct (settled_pointwise self w Hd Hc)
    as (Hst & Hix & Hm & Hstrs & Httl & Hclock).
  split; [done | ]. split.
  { rewrite Hm, decide_True by done. unfold nothing_stale in Hs.
    apply leibniz_equiv. set_solver. }
  split.
  { intros key Hk. by rewrite Hm, decide_False. }
  split.
  { intros name entry Hl Hcons. split.
    - rewrite Hst. by apply hit_definition_configured.
    - rewrite Hix. apply hit_score_configured; [done | done | ].
      by apply (Hc name entry). }
  split.
  { intros key field Hf.
    rewrite Hst, !hit_definition_elsewhere; [done | by left | by left]. }
  done.
Qed.

Lemma overlay_twice {A B} (hit hit' : A → option B) (l l' : list A)
    (acc : option B) :
  overlay hit l (overlay hit' l' (overlay hit l (overlay hit' l' acc)))
  = overlay hit l (overlay hit' l' acc).
Proof.
  rewrite (overlay_alt hit l (overlay hit' l' (overlay hit l _))).
  rewrite (overlay_alt hit l (overlay hit' l' acc)).
  destruct (overlay hit l None) as [v | ] eqn:Hv; [done | ].
  rewrite (overlay_alt hit' l' (overlay hit' l' acc)).
  destruct (overlay hit' l' None) as [v' | ] eqn:Hv'; [ | done].
  by rewrite (overlay_alt hit' l' acc), Hv'.
Qed.

(** X10, reconciling again changes nothing: under the conditions of the
    reconciliation above, a second [setup_schedule] at the same reading of
    the clock returns as well and leaves every hash field, every score,
    every set, the strings, the expiries and the clock as the first one
    left them. *)
Theorem setup_schedule_twice_is_once self w :
  nothing_stale self w →
  all_scorable self (clock w) (RedBeatScheduler.default_entries self) →
  all_scorable self (clock w)
    (CELERYBEAT_SCHEDULE (conf (RedBeatScheduler.app self))) →
  outcome (RedBeatScheduler.setup_schedule self)
    (exec (RedBeatScheduler.setup_schedule self) w) = inr tt
  ∧ (∀ key field,
       stored key field
         (exec (RedBeatScheduler.setup_schedule self)
            (exec (RedBeatScheduler.setup_schedule self) w))
       = stored key field (exec (RedBeatScheduler.setup_schedule self) w))
  ∧ (∀ index member,
       indexed index member
         (exec (RedBeatScheduler.setup_schedule self)
            (exec (RedBeatScheduler.setup_schedule self) w))
       = indexed index member (exec (RedBeatScheduler.setup_schedule self) w))
  ∧ (∀ key,
       members key
         (exec (RedBeatScheduler.setup_schedule self)
            (exec (RedBeatScheduler.setup_schedule self) w))
       = members key (exec (RedBeatScheduler.setup_schedule self) w))
  ∧ strs (exec (RedBeatScheduler.setup_schedule self)
            (exec (RedBeatScheduler.setup_schedule self) w))
    = strs (exec (RedBeatScheduler.setup_schedule self) w)
  ∧ ttl (exec (RedBeatScheduler.setup_schedule self)
           (exec (RedBeatScheduler.setup_schedule self) w))
    = ttl (exec (RedBeatScheduler.setup_schedule self) w)
  ∧ clock (exec (RedBeatScheduler.setup_schedule self)
             (exec (RedBeatScheduler.setup_schedule self) w))
    = clock (exec (RedBeatScheduler.setup_schedule self) w).
Proof.
  intros Hs Hd Hc. unfold outcome, exec.
  rewrite (setup_schedule_run self w Hs Hd Hc). cbn [fst snd].
  destruct (settled_pointwise self w Hd Hc)
    as (Hst & Hix & Hm & Hstrs & Httl & Hclock).
  pose proof (settled_nothing_stale self w Hd Hc Hs) as Hs'.
  assert (Hd' : all_scorable self (clock (settled self w))
                  (RedBeatScheduler.default_entries self))
    by (by rewrite Hclock).
  assert (Hc' : all_scorable self (clock (settled self w))
                  (CELERYBEAT_SCHEDULE (conf (RedBeatScheduler.app self))))
    by (by rewrite Hclock).
  rewrite (setup_schedule_run self (settled self w) Hs' Hd' Hc').
  cbn [fst snd].
  destruct (settled_pointwise self (settled self w) Hd' Hc')
    as (Hst' & Hix' & Hm' & Hstrs' & Httl' & Hclock').
  split; [done | ]. split.
  { intros key field. rewrite Hst', Hclock, Hst. apply overlay_twice. }
  split.
  { intros index member. rewrite Hix', Hclock, Hix. apply overlay_twice. }
  split.
  { intros key. rewrite Hm', Hm. case_decide; [ | done].
    apply leibniz_equiv. set_solver. }
  done.
Qed.

(** X15, reconciliation only ever adds names: however [setup_schedule]
    ends, every set of the server holds each name it held before, and so
    it is after any sequence of reconciliations by any schedulers; and
    when [setup_schedule] returns, every configured name is in the set of
    static names. *)
Theorem setup_schedule_only_adds_names self
    (runs : list (@RedBeatScheduler.t R)) w (key : string) :
  members key w
  ⊆ members key (exec (RedBeatScheduler.setup_schedule self) w)
  ∧ members key w ⊆ members key (reconcile_all runs w)
  ∧ (outcome (RedBeatScheduler.setup_schedule self) w = inr tt →
     dom (CELERYBEAT_SCHEDULE (conf (RedBeatScheduler.app self)))
     ⊆ members (REDBEAT_STATICS_KEY (conf (RedBeatScheduler.app self)))
         (exec (RedBeatScheduler.setup_schedule self) w)).
Proof.
  split; [apply keeps_names_setup_schedule | ].
  split; [apply reconcile_all_keeps_names | ].
  intros Hout. unfold outcome in Hout. unfold exec.
  destruct (RedBeatScheduler.setup_schedule self w) as [w' r] eqn:Hrun.
  cbn [fst snd] in *. subst r.
  unfold RedBeatScheduler.setup_schedule in Hrun. cbv zeta in Hrun.
  rewrite (bind_inr (Redis.smembers _) _ w w _ eq_refl) in Hrun.
  unfold bind at 1 in Hrun. rewrite delete_stale_names_run in Hrun.
  destruct (elements _); [ | discriminate Hrun].
  unfold RedBeatScheduler.install_default_entries in Hrun.
  unfold bind at 1 in Hrun.
  destruct (RedBeatScheduler.update_from_dict self
              (RedBeatScheduler.default_entries self) w)
    as [w1 [x | []]]; [discriminate Hrun | ].
  case_bool_decide as He.
  { rewrite He, dom_empty_L. set_solver. }
  unfold bind at 1 in Hrun.
  destruct (RedBeatScheduler.update_from_dict self _ w1)
    as [w2 [x | []]]; [discriminate Hrun | ].
  injection Hrun as <-. unfold members. cbn [sets].
  rewrite lookup_insert_eq, list_to_set_keys. cbn. set_solver.
Qed.

End reconciliation_settles.

(** ** A save that fails, and what the reconciliation does with it *)

Section save_failures.
Context {R : Type} `{Countable R}
        `{!RecurrenceRule R} `{!Codec R} `{!Runtime R}.
Import RedBeatSchedulerEntry.

Implicit Types (self : @RedBeatScheduler.t R) (w : world)
  (entry : pydict R) (name : string).

Lemma score_fails_run (e : RedBeatSchedulerEntry.t) w0 w x :
  clock w = clock w0 → outcome (score e) w0 = inl x →
  score e w = (w, inl x).
Proof.
  intros Hc Hs. pose proof (score_pure e w) as Hp.
  pose proof (score_clock e w w0 Hc) as Hr. unfold outcome in Hs.
  destruct (score e w) as [w' r]; cbn in *. congruence.
Qed.

Lemma save_fails_run (e : RedBeatSchedulerEntry.t) w a k x :
  app e = Some a →
  outcome (key e) w = inr k →
  outcome (score e) w = inl x →
  save e w
  = (exec (Redis.hset k "definition" (dumps (definition_of e))) w, inl x).
Proof.
  intros Ha Hk Hs. unfold save, app_conf. rewrite Ha. cbv zeta.
  rewrite (bind_inr _ _ w w k (key_run e w w k Hk)).
  set (w1 := exec (Redis.hset k "definition" (dumps (definition_of e))) w).
  rewrite (bind_inr (Redis.hset k _ _) _ w w1 tt eq_refl).
  rewrite (bind_inr (ret (conf a)) _ w1 w1 (conf a) eq_refl).
  by rewrite (bind_inl _ _ w1 w1 x (score_fails_run e w w1 x eq_refl Hs)).
Qed.

(** X11, a save that has no score is half done: on an entry with an
    application and a string for a name whose score raises, [save] raises
    the same exception after it has stored the definition; the definition
    is then under the key, and no sorted set has changed, so the key is in
    no index. *)
Theorem save_without_score_stores_unindexed (e : RedBeatSchedulerEntry.t)
    w a k x :
  app e = Some a →
  outcome (key e) w = inr k →
  outcome (score e) w = inl x →
  outcome (save e) w = inl x
  ∧ stored k "definition" (exec (save e) w)
    = Some (dumps (definition_of e))
  ∧ zsets (exec (save e) w) = zsets w.
Proof.
  intros Ha Hk Hs. unfold outcome at 1, exec.
  rewrite (save_fails_run e w a k x Ha Hk Hs). cbn [fst snd].
  split; [done | ]. split; [ | done].
  rewrite stored_hset. by rewrite decide_True.
Qed.

Lemma timestamp_none (e : RedBeatSchedulerEntry.t) w :
  timestamp e (clock w) = None → ∃ x, outcome (score e) w = inl x.
Proof.
  unfold timestamp, outcome, score, bind. rewrite due_at_time.
  destruct (due_time e (clock w)) as [x | dt]; cbn; [eauto | done].
Qed.

Lemma save_clock (e : RedBeatSchedulerEntry.t) w :
  clock (exec (save e) w) = clock w.
Proof.
  unfold exec, save, app_conf. cbv zeta.
  pose proof (key_pure e) as Hkp. pose proof (score_pure e) as Hsp.
  unfold bind at 1. pose proof (Hkp w) as Hk1.
  destruct (key e w) as [w1 [x | k]]; cbn in Hk1; subst w1; [done | ].
  unfold bind at 1. cbn [Redis.hset].
  destruct (app e) as [a | ]; [ | done].
  unfold bind at 1. cbn [ret].
  unfold bind at 1.
  match goal with |- context [score e ?w1] =>
    pose proof (Hsp w1) as Hs1; destruct (score e w1) as [w2 [x | s]]
  end; cbn in Hs1; subst w2; [done | ].
  unfold bind at 1.
  match goal with |- context [key e ?w1] =>
    pose proof (Hkp w1) as Hk2; destruct (key e w1) as [w2 [x | k']]
  end; cbn in Hk2; subst w2; done.
Qed.

(** The body of the loop of [update_from_dict]. *)
Definition install_item self : string * pydict R → M unit :=
  λ '(name, entry),
    made ← try_Exception
              (e ← RedBeatScheduler._maybe_entry self name entry;
               ret (Some e))
              (λ exc, ret None);
    match made with
    | None => ret tt
    | Some entry => save entry
    end.

Lemma install_item_run self w name entry :
  install_item self (name, entry) w
  = if decide (constructible entry)
    then save (made self name entry (clock w)) w
    else (w, inr tt).
Proof.
  unfold install_item.
  assert (Htry :
    try_Exception
      (e ← RedBeatScheduler._maybe_entry self name entry; ret (Some e))
      (λ exc, ret None) w
    = (w, inr (if decide (constructible entry)
               then Some (made self name entry (clock w)) else None))).
  { unfold try_Exception. cbv beta. unfold bind.
    rewrite maybe_entry_run. by destruct (decide _). }
  rewrite (bind_inr _ _ w w _ Htry). by destruct (decide _).
Qed.

Lemma install_item_clock self w item :
  clock (exec (install_item self item) w) = clock w.
Proof.
  destruct item as [name entry]. unfold exec. rewrite install_item_run.
  destruct (decide _); [apply save_clock | done].
Qed.

Lemma install_items_clock self (l : list (string * pydict R)) :
  ∀ w, clock (exec (for_each l (install_item self)) w) = clock w.
Proof.
  induction l as [ | item l IH]; intros w; [done | ].
  cbn [for_each]. unfold exec, bind.
  pose proof (install_item_clock self w item) as Hc. unfold exec in Hc.
  destruct (install_item self item w) as [w1 [x | []]]; cbn in *; [done | ].
  rewrite <- Hc. apply IH.
Qed.

Lemma install_items_raise self (l : list (string * pydict R)) :
  ∀ w,
    (∃ item, item ∈ l ∧ constructible item.2
             ∧ timestamp (made self item.1 item.2 (clock w)) (clock w)
               = None) →
    ∃ x, outcome (for_each l (install_item self)) w = inl x.
Proof.
  induction l as [ | [name entry] l IH]; intros w (item & Hin & Hc & Hts).
  { by apply elem_of_nil in Hin. }
  cbn [for_each]. unfold outcome, bind.
  pose proof (install_item_clock self w (name, entry)) as Hclock.
  unfold exec in Hclock.
  destruct (install_item self (name, entry) w) as [w1 [x | []]] eqn:Hrun;
    cbn [fst snd] in *; [eauto | ].
  apply IH. rewrite Hclock. exists item. split; [ | done].
  apply elem_of_cons in Hin as [-> | Hin]; [ | done]. exfalso.
  cbn [fst snd] in Hc, Hts.
  rewrite install_item_run, decide_True in Hrun by done.
  destruct (timestamp_none _ w Hts) as [x Hx].
  rewrite (save_fails_run (made self name entry (clock w)) w
             (RedBeatScheduler.app self) _ x eq_refl
             (key_made self name entry (clock w) w) Hx) in Hrun.
  discriminate.
Qed.

(** X12, an error of [save] leaves [update_from_dict]: only the
    construction of an entry is guarded.  When the dict holds an entry
    that can be constructed and has no score, [update_from_dict] raises;
    and [setup_schedule] raises when the configuration holds one. *)
Theorem update_from_dict_lets_save_errors_out self
    (dict_ : gmap string (pydict R)) w name entry :
  dict_ !! name = Some entry →
  constructible entry →
  timestamp (made self name entry (clock w)) (clock w) = None →
  (∃ x, outcome (RedBeatScheduler.update_from_dict self dict_) w = inl x)
  ∧ (dict_ = CELERYBEAT_SCHEDULE (conf (RedBeatScheduler.app self)) →
     ∃ x, outcome (RedBeatScheduler.setup_schedule self) w = inl x).
Proof.
  intros Hl Hc Hts.
  assert (Hup : ∀ w0, clock w0 = clock w →
            ∃ x, outcome (RedBeatScheduler.update_from_dict self dict_) w0
                 = inl x).
  { intros w0 Hw0.
    apply (install_items_raise self (map_to_list dict_) w0).
    exists (name, entry). rewrite Hw0.
    split; [by apply elem_of_map_to_list | done]. }
  split; [by apply Hup | ].
  intros ->. unfold RedBeatScheduler.setup_schedule. cbv zeta.
  unfold outcome.
  rewrite (bind_inr (Redis.smembers _) _ w w _ eq_refl).
  unfold bind at 1. rewrite delete_stale_names_run.
  destruct (elements _); [ | eauto].
  unfold RedBeatScheduler.install_default_entries.
  unfold bind at 1.
  pose proof (install_items_clock self
                (map_to_list (RedBeatScheduler.default_entries self)) w)
    as Hclock.
  unfold exec in Hclock.
  change (for_each _ (install_item self))
    with (RedBeatScheduler.update_from_dict self
            (RedBeatScheduler.default_entries self)) in Hclock.
  destruct (RedBeatScheduler.update_from_dict self
              (RedBeatScheduler.default_entries self) w)
    as [w1 [x | []]]; cbn [fst snd] in *; [eauto | ].
  rewrite bool_decide_eq_false_2.
  2:{ intros He. by rewrite He, lookup_empty in Hl. }
  destruct (Hup w1 Hclock) as [x Hx]. unfold outcome in Hx.
  unfold bind at 1.
  destruct (RedBeatScheduler.update_from_dict self _ w1) as [w2 r].
  cbn in Hx. subst r. eauto.
Qed.

End save_failures.

(** ** From [save] to [schedule] *)

Section save_then_schedule.
Context {R : Type} `{Countable R}
        `{!RecurrenceRule R} `{!Codec R} `{!Runtime R}.
Import RedBeatSchedulerEntry.

Implicit Types (sched : @RedBeatScheduler.t R) (w : world).

Lemma by_name_same (entries : list (@RedBeatSchedulerEntry.t R)) e :
  (∀ x, x ∈ entries → x = e) →
  ∀ d : gmap (pyval R) RedBeatSchedulerEntry.t, by_name (<[name e := e]> d) entries = <[name e := e]> d.
Proof.
  induction entries as [ | x entries IH]; intros Hall d; [done | ].
  cbn [by_name foldl]. rewrite (Hall x) by (by left).
  rewrite insert_insert_eq. apply IH. intros y Hy. apply Hall. by right.
Qed.

Lemma by_name_only (entries : list (@RedBeatSchedulerEntry.t R)) e :
  e ∈ entries → (∀ x, x ∈ entries → x = e) →
  by_name ∅ entries = {[ name e := e ]}.
Proof.
  intros Hin Hall. destruct entries as [ | x entries].
  { by apply elem_of_nil in Hin. }
  cbn [by_name foldl]. rewrite (Hall x) by (by left).
  rewrite <- insert_empty. apply by_name_same.
  intros y Hy. apply Hall. by right.
Qed.

Lemma key_is_string (e : RedBeatSchedulerEntry.t) w k :
  outcome (key e) w = inr k → RedBeatScheduler.hashable (name e) = true.
Proof. unfold outcome, key. by destruct (name e). Qed.

(** X13, a saved entry is the next schedule: an entry of the scheduler's
    application is saved with a score between [0] and the horizon of the
    tick, under a key whose meta field is absent or readable, and no
    other key of the index has its score in that window.  Then [schedule]
    returns the dict with the one name of the entry, bound to the entry
    that [from_key] loads from its key: the saved definition, the run data
    of the meta record, no application; and [schedule] changes nothing on
    the server. *)
Theorem saved_entry_is_scheduled sched (e : RedBeatSchedulerEntry.t) w k s
    (m : pydict R) horizon :
  app e = Some (RedBeatScheduler.app sched) →
  outcome (key e) w = inr k →
  outcome (score e) w = inr s →
  outcome (load_meta k) w = inr m →
  dom m ⊆ meta_keys →
  datetime_add (clock w) (RedBeatScheduler.max_interval sched * 1000000)
  = inr horizon →
  (0 ≤ s ≤ to_timestamp horizon)%Z →
  (∀ key' s',
     indexed (REDBEAT_SCHEDULE_KEY (conf (RedBeatScheduler.app sched)))
       key' w = Some s' →
     (0 ≤ s' ≤ to_timestamp horizon)%Z → key' = k) →
  outcome (RedBeatScheduler.schedule sched) (exec (save e) w)
  = inr {[ name e :=
             Entry (name e) (task e) (schedule e) (args e) (kwargs e)
               (options e) (enabled e)
               (py_or (default PNone (m !! "last_run_at"))
                  (PDatetime (clock w)))
               (py_or (default PNone (m !! "total_run_count")) (PInt 0))
               None ]}
  ∧ same_but_zsets (exec (save e) w)
      (exec (RedBeatScheduler.schedule sched) (exec (save e) w))
  ∧ ∀ index member,
      indexed index member
        (exec (RedBeatScheduler.schedule sched) (exec (save e) w))
      = indexed index member (exec (save e) w).
Proof.
  intros Ha Hk Hs Hm Hdom Hh Hwin Hone.
  set (index0 := REDBEAT_SCHEDULE_KEY (conf (RedBeatScheduler.app sched)))
    in *.
  set (w1 := exec (Redis.zadd index0 s k)
               (exec (Redis.hset k "definition" (dumps (definition_of e)))
                  w)).
  assert (Hsave : exec (save e) w = w1).
  { unfold exec at 1. by rewrite (save_run e w _ k s Ha Hk Hs). }
  rewrite !Hsave.
  assert (Hst : stored k "definition" w1 = Some (dumps (definition_of e))).
  { unfold w1. rewrite stored_zadd, stored_hset. by rewrite decide_True. }
  assert (Hm1 : outcome (load_meta k) w1 = inr m).
  { rewrite <- Hm. apply load_meta_stored. unfold w1.
    rewrite stored_zadd, stored_hset.
    by rewrite decide_False by (by intros [_ ?]). }
  assert (Hix : ∀ key', indexed index0 key' w1
                        = if decide (key' = k) then Some s
                          else indexed index0 key' w).
  { intros key'. unfold w1. rewrite indexed_zadd, indexed_hset.
    repeat case_decide; try done; exfalso; naive_solver. }
  assert (Hkept : well_kept k w1).
  { exists e, m. split; [done | ]. split; [done | ]. split; [done | ].
    by apply (key_is_string e w k). }
  assert (Hnd : dangling k w1 = false).
  { unfold dangling. rewrite Hst.
    pose proof (dumps_nonempty (definition_of e)). by destruct (dumps _). }
  set (entry := Entry (name e) (task e) (schedule e) (args e) (kwargs e)
                  (options e) (enabled e)
                  (py_or (default PNone (m !! "last_run_at"))
                     (PDatetime (clock w)))
                  (py_or (default PNone (m !! "total_run_count")) (PInt 0))
                  None).
  assert (Hload : loaded w1 k = Some entry).
  { unfold loaded, outcome.
    rewrite (from_key_run k w1 (definition_of e) m Hst Hm1).
    - cbn [snd]. f_equal. by apply construct_saved.
    - rewrite dom_union_L, dom_definition_of.
      unfold meta_keys, init_keywords in *. set_solver. }
  destruct (zrangebyscore_run index0 0 (to_timestamp horizon) w1)
    as (due & Hq & Hdue).
  assert (Hdue' : ∀ key', key' ∈ due ↔ key' = k).
  { intros key'. rewrite Hdue. split.
    - intros (s' & Hs' & Hr). rewrite Hix in Hs'.
      case_decide; [done | ]. by apply (Hone key' s').
    - intros ->. exists s. rewrite Hix. by rewrite decide_True. }
  assert (Hrun : RedBeatScheduler.due_tasks sched w1 = (w1, inr due)).
  { unfold RedBeatScheduler.due_tasks.
    rewrite (bind_inr (RedBeatScheduler.max_due_at sched) _ w1 w1
               (to_timestamp horizon)); [exact Hq | ].
    unfold RedBeatScheduler.max_due_at.
    change (clock w1) with (clock w). by rewrite Hh. }
  destruct (collect_run sched due ∅ w1) as (w' & Hcol & Hsame & Hidx).
  { intros key' Hin. apply Hdue' in Hin as ->. by right. }
  assert (Hsched : RedBeatScheduler.schedule sched w1
                   = (w', inr {[ name e := entry ]})).
  { unfold RedBeatScheduler.schedule.
    rewrite (bind_inr _ _ w1 w1 due Hrun), Hcol. f_equal. f_equal.
    apply (by_name_only _ entry).
    - apply list_elem_of_omap. exists k. split; [by apply Hdue' | done].
    - intros x Hx. apply list_elem_of_omap in Hx as (key' & Hin & Hl).
      apply Hdue' in Hin as ->. congruence. }
  unfold outcome, exec. rewrite Hsched. cbn [fst snd].
  split; [done | ]. split; [done | ].
  intros index member. rewrite Hidx. rewrite decide_False; [done | ].
  intros (_ & Hin & Hd). apply Hdue' in Hin as ->. congruence.
Qed.

End save_then_schedule.

(** ** Reserving an entry *)

Section reserving.
Context {R : Type} `{Countable R}
        `{!RecurrenceRule R} `{!Codec R} `{!Runtime R}.
Import RedBeatSchedulerEntry.

Implicit Types (sched : @RedBeatScheduler.t R) (w : world).

(** [next] stops before any write, or after the one write of the meta
    field. *)
Lemma next_world (e : RedBeatSchedulerEntry.t) (last : pyval R) w :
  exec (next e last) w = w
  ∨ ∃ k v, exec (next e last) w = exec (Redis.hset k "meta" v) w.
Proof.
  unfold exec at 1 2, next.
  rewrite (bind_inr _default_now _ w w (PDatetime (clock w)) eq_refl).
  cbv zeta. cbn [name task schedule args kwargs options enabled last_run_at
                 total_run_count app].
  destruct (incr (total_run_count e)) as [x | count] eqn:Hc.
  { rewrite (bind_inl (lift (inl x)) _ w w x eq_refl). by left. }
  rewrite (bind_inr (lift (inr count)) _ w w count eq_refl).
  match goal with |- context [key ?e'] => set (self' := e') end.
  destruct (key self' w).2 as [x | k'] eqn:Hk'.
  { assert (Hx : key self' w = (w, inl x)).
    { pose proof (key_pure self' w) as Hp.
      destruct (key self' w); cbn in *; by subst. }
    rewrite (bind_inl _ _ w w x Hx). by left. }
  rewrite (bind_inr _ _ w w k' (key_run self' w w k' Hk')).
  right. eexists k', _.
  match goal with |- context [Redis.hset k' "meta" ?v] =>
    set (w1 := exec (Redis.hset k' "meta" v) w);
    rewrite (bind_inr (Redis.hset k' "meta" v) _ w w1 tt eq_refl)
  end.
  rewrite global_schedule_key_unbound.
  by rewrite (bind_inl (raise _) _ w1 w1 (NameError "REDBEAT_SCHEDULE_KEY")
                eq_refl).
Qed.

Lemma due_tasks_reads sched w w' :
  zsets w' = zsets w → clock w' = clock w →
  outcome (RedBeatScheduler.due_tasks sched) w'
  = outcome (RedBeatScheduler.due_tasks sched) w.
Proof.
  intros Hz Hc.
  unfold outcome, RedBeatScheduler.due_tasks, RedBeatScheduler.max_due_at,
    bind, Redis.zrangebyscore.
  rewrite Hc. destruct (datetime_add _ _); cbn; [done | ]. by rewrite Hz.
Qed.

(** X14, a reserved entry stays due: [reserve] never returns an entry,
    whatever the entry; it leaves every sorted set and the clock as they
    were, so the query of the next tick at the same reading of the clock
    gives the keys it gave before. *)
Theorem reserve_leaves_entry_due sched (e : RedBeatSchedulerEntry.t) w :
  (∀ e', outcome (RedBeatScheduler.reserve sched e) w ≠ inr e')
  ∧ zsets (exec (RedBeatScheduler.reserve sched e) w) = zsets w
  ∧ clock (exec (RedBeatScheduler.reserve sched e) w) = clock w
  ∧ outcome (RedBeatScheduler.due_tasks sched)
      (exec (RedBeatScheduler.reserve sched e) w)
    = outcome (RedBeatScheduler.due_tasks sched) w.
Proof.
  unfold RedBeatScheduler.reserve.
  destruct (next_never_reindexes e PNone w) as (Hz & Hnever & _).
  assert (Hc : clock (exec (next e PNone) w) = clock w).
  { destruct (next_world e PNone w) as [-> | (k & v & ->)]; done. }
  split; [exact Hnever | ]. split; [exact Hz | ]. split; [exact Hc | ].
  by apply due_tasks_reads.
Qed.

End reserving.

(** * Scenarios

    The statements above at concrete entries, schedulers and servers, with
    the reference collaborators. *)

Import Reference.
Import RedBeatSchedulerEntry.

(** 2015-01-01 00:00:00, and one minute later. *)
Definition new_year : Z := 63555667200000000.
Definition minute_later : Z := new_year + 60 * 1000000.

Definition app0 : App interval := {| conf := default_conf |}.

(** An entry [x] that runs task [t] every minute, last run at [new_year]
    and run three times so far. *)
Definition entry_x : RedBeatSchedulerEntry.t :=
  Entry (PStr "x") (PStr "t") (PRule (Every 60)) (PList []) (PDict [])
    (PDict []) (PBool true) (PDatetime new_year) (PInt 3) (Some app0).

(** The server once [entry_x] is saved, a minute after its last run. *)
Definition saved_x : world := exec (save entry_x) (empty_world minute_later).

(** The server once [next] has then been called on [entry_x]. *)
Definition fired_x : world := exec (next entry_x PNone) saved_x.

(** C1, at an entry that has just come due: [save] indexes [entry_x] at
    the timestamp of its due time; [next] then records the run in the meta
    field and raises [NameError]; the index still holds the old score,
    while the score of the entry as [next] updated it is two minutes
    later. *)
Theorem next_leaves_stale_score :
  indexed "redbeat::schedule" "redbeat:x" saved_x = Some 1420070400
  ∧ outcome (next entry_x PNone) saved_x
    = inl (NameError "REDBEAT_SCHEDULE_KEY")
  ∧ stored "redbeat:x" "meta" fired_x
    = Some (dumps ({[ "last_run_at" := PDatetime minute_later;
                      "total_run_count" := PInt 4 ]} : pydict interval))
  ∧ indexed "redbeat::schedule" "redbeat:x" fired_x = Some 1420070400
  ∧ outcome
      (score (Entry (PStr "x") (PStr "t") (PRule (Every 60)) (PList [])
                (PDict []) (PDict []) (PBool true) (PDatetime minute_later)
                (PInt 4) (Some app0)))
      fired_x
    = inr 1420070520.
Proof.
  destruct (next_never_reindexes entry_x PNone saved_x) as (Hz & _ & Hn).
  destruct (Hn "redbeat:x" 3 eq_refl eq_refl) as [Hout Hmeta].
  split; [by vm_compute | ]. split; [exact Hout | ].
  split; [exact Hmeta | ]. split; [ | by vm_compute].
  unfold indexed, fired_x. rewrite Hz. by vm_compute.
Qed.

(** C2, the claim fails: after [save], [from_key] returns [entry_x] with
    [datetime.min] for its [last_run_at] and [0] for its
    [total_run_count]. *)
Lemma save_then_from_key_loses_run_history :
  ∃ loaded,
    outcome (from_key (R:=interval) "redbeat:x") saved_x = inr loaded
    ∧ last_run_at loaded = PDatetime datetime_min
    ∧ last_run_at entry_x = PDatetime new_year
    ∧ total_run_count loaded = PInt 0
    ∧ total_run_count entry_x = PInt 3.
Proof. eexists. split; [by vm_compute | done]. Qed.

Lemma save_then_from_key_witness :
  outcome (save entry_x) (empty_world minute_later) = inr tt
  ∧ stored "redbeat:x" "meta" saved_x = None
  ∧ outcome (from_key (R:=interval) "redbeat:x") saved_x
    = inr (Entry (PStr "x") (PStr "t") (PRule (Every 60)) (PList [])
             (PDict []) (PDict []) (PBool true) (PDatetime datetime_min)
             (PInt 0) None).
Proof.
  destruct (save_then_from_key entry_x (empty_world minute_later) app0
              "redbeat:x" 1420070400
              {[ "last_run_at" := PDatetime datetime_min ]})
    as (Hsave & Hmeta & Hload).
  - reflexivity.
  - reflexivity.
  - vm_compute. reflexivity.
  - reflexivity.
  - apply (bool_decide_unpack _). vm_compute. exact I.
  - unfold saved_x. split; [exact Hsave | ]. split.
    + rewrite Hmeta. reflexivity.
    + rewrite Hload. reflexivity.
Defined.

(** A scheduler with the default configuration and no lock. *)
Definition scheduler0 : RedBeatScheduler.t :=
  RedBeatScheduler.Scheduler app0 None "redbeat::lock" 1500 300 ∅.

(** An index with one key scored before the epoch, one at the epoch, one
    within five minutes of [new_year] and one beyond. *)
Definition scored : world :=
  World ∅
    {[ "redbeat::schedule" :=
         {[ "redbeat:before" := (-1)%Z; "redbeat:epoch" := 0;
            "redbeat:soon" := 1420070460; "redbeat:far" := 1420074000 ]} ]}
    ∅ ∅ ∅ new_year.

(** C3, the claim fails: the key scored [-1] is in the index with a score
    below the look-ahead instant, and the query does not return it. *)
Lemma due_tasks_misses_negative_score :
  ∃ due,
    outcome (RedBeatScheduler.due_tasks scheduler0) scored = inr due
    ∧ ("redbeat:before" ∉ due)
    ∧ indexed "redbeat::schedule" "redbeat:before" scored = Some (-1)
    ∧ outcome (RedBeatScheduler.max_due_at scheduler0) scored
      = inr 1420070700
    ∧ (-1 ≤ 1420070700)%Z.
Proof.
  exists ["redbeat:epoch"; "redbeat:soon"].
  split; [by vm_compute | ]. split; [ | by vm_compute].
  apply (bool_decide_unpack _). by vm_compute.
Qed.

Lemma due_tasks_between_zero_and_horizon_witness :
  ∃ due,
    RedBeatScheduler.due_tasks scheduler0 scored = (scored, inr due)
    ∧ ∀ key,
        key ∈ due
        ↔ ∃ score,
            indexed "redbeat::schedule" key scored = Some score
            ∧ (0 ≤ score ≤ 1420070700)%Z.
Proof.
  exact (due_tasks_between_zero_and_horizon scheduler0 scored
           (new_year + 300 * 1000000) eq_refl).
Defined.

(** A server on which [next] had counted a fourth run of [entry_x] before
    the entry is rescheduled. *)
Lemma reschedule_forgets_run_count_witness :
  stored "redbeat:x" "meta" fired_x
  = Some (dumps ({[ "last_run_at" := PDatetime minute_later;
                    "total_run_count" := PInt 4 ]} : pydict interval))
  ∧ ∃ self' loaded,
      outcome (reschedule entry_x PNone) fired_x = inr self'
      ∧ total_run_count self' = PInt 3
      ∧ stored "redbeat:x" "meta" (exec (reschedule entry_x PNone) fired_x)
        = Some (dumps ({[ "last_run_at" := PDatetime minute_later ]}
                         : pydict interval))
      ∧ outcome (from_key (R:=interval) "redbeat:x")
          (exec (reschedule entry_x PNone) fired_x)
        = inr loaded
      ∧ total_run_count loaded = PInt 0.
Proof.
  split; [by vm_compute | ].
  destruct (reschedule_forgets_run_count entry_x PNone fired_x app0
              "redbeat:x" 1420070520 entry_x)
    as (self' & loaded & Hout & Hcount & Hmeta & Hload & _ & Hzero).
  - reflexivity.
  - reflexivity.
  - vm_compute. reflexivity.
  - vm_compute. reflexivity.
  - exists self', loaded. split; [exact Hout | ]. split; [exact Hcount | ].
    split; [ | by split].
    rewrite Hmeta. injection Hout as <-. reflexivity.
Defined.

(** C9, the claim fails: a meta field that holds bytes which are no
    encoded record makes [load_meta] raise. *)
Lemma load_meta_raises_on_undecodable_meta :
  outcome (load_meta (R:=interval) "redbeat:x")
    (World {[ "redbeat:x" := {[ "meta" := "{" ]} ]} ∅ ∅ ∅ ∅ new_year)
  = inl ValueError.
Proof. by vm_compute. Qed.

(** The static entries [A], [B] and [C], each running task [t] every
    minute. *)
Definition job : pydict interval :=
  {[ "task" := PStr "t"; "schedule" := PRule (Every 60) ]}.

Definition static_entry (name : string) : RedBeatSchedulerEntry.t :=
  Entry (PStr name) (PStr "t") (PRule (Every 60)) PNone PNone (PDict [])
    (PBool true) (PDatetime new_year) (PInt 0) (Some app0).

(** The server that a scheduler configured with [A] and [B] leaves: both
    saved and indexed, both tracked as static. *)
Definition tracking_ab : world :=
  exec (Redis.sadd "redbeat::statics" ["A"; "B"])
    (exec (save (static_entry "B"))
       (exec (save (static_entry "A")) (empty_world new_year))).

(** A scheduler whose configuration has [B] and [C]. *)
Definition scheduler_bc : RedBeatScheduler.t :=
  RedBeatScheduler.Scheduler
    {| conf := {| REDBEAT_KEY_PREFIX := "redbeat:";
                  REDBEAT_SCHEDULE_KEY := "redbeat::schedule";
                  REDBEAT_STATICS_KEY := "redbeat::statics";
                  REDBEAT_LOCK_KEY := "redbeat::lock";
                  REDBEAT_LOCK_TIMEOUT := 1500;
                  CELERYBEAT_SCHEDULE := {[ "B" := job; "C" := job ]};
                  CELERYBEAT_MAX_LOOP_INTERVAL := 300 |} |}
    None "redbeat::lock" 1500 300 ∅.

(** C4, with [A] and [B] tracked and [B] and [C] configured: [A] is the
    one stale name; [setup_schedule] raises [AttributeError] at the
    [delete] of the entry it builds for [A], which has no application, and
    the server is as before: [A] is still stored and indexed, [C] is
    neither stored nor tracked. *)
Theorem setup_schedule_raises_on_stale_name :
  RedBeatScheduler.removed scheduler_bc (members "redbeat::statics" tracking_ab)
  = {[ "A" ]}
  ∧ RedBeatScheduler.setup_schedule scheduler_bc tracking_ab
    = (tracking_ab, inl (AttributeError "conf"))
  ∧ stored "redbeat:A" "definition" tracking_ab
    = Some (dumps (definition_of (static_entry "A")))
  ∧ indexed "redbeat::schedule" "redbeat:A" tracking_ab = Some 1420070460
  ∧ stored "redbeat:C" "definition" tracking_ab = None
  ∧ members "redbeat::statics" tracking_ab = {[ "A"; "B" ]}.
Proof.
  assert (Hr : RedBeatScheduler.removed scheduler_bc
                 (members "redbeat::statics" tracking_ab) = {[ "A" ]}).
  { apply (bool_decide_unpack _). by vm_compute. }
  split; [exact Hr | ]. split.
  - apply setup_schedule_stale_raises.
    change (RedBeatScheduler.removed scheduler_bc
              (members "redbeat::statics" tracking_ab) ≠ ∅).
    rewrite Hr. apply (bool_decide_unpack _). by vm_compute.
  - split; [by vm_compute | ]. split; [by vm_compute | ].
    split; [by vm_compute | ].
    apply (bool_decide_unpack _). by vm_compute.
Qed.

(** A scheduler whose configuration has [A] and [B]. *)
Definition scheduler_ab : RedBeatScheduler.t :=
  RedBeatScheduler.Scheduler
    {| conf := {| REDBEAT_KEY_PREFIX := "redbeat:";
                  REDBEAT_SCHEDULE_KEY := "redbeat::schedule";
                  REDBEAT_STATICS_KEY := "redbeat::statics";
                  REDBEAT_LOCK_KEY := "redbeat::lock";
                  REDBEAT_LOCK_TIMEOUT := 1500;
                  CELERYBEAT_SCHEDULE := {[ "A" := job; "B" := job ]};
                  CELERYBEAT_MAX_LOOP_INTERVAL := 300 |} |}
    None "redbeat::lock" 1500 300 ∅.

(** The server that the reconciliation of [scheduler_ab] leaves when it
    starts on an empty one. *)
Definition reconciled_ab : world :=
  exec (RedBeatScheduler.setup_schedule scheduler_ab) (empty_world new_year).

(** C10, at a configuration that drops [A]: the reconciliation of
    [scheduler_ab] returns, stores and indexes [A] and [B] and tracks both
    names.  Each reconciliation of [scheduler_bc] that follows finds [A]
    tracked and computes it as removed, but issues no deletion: the
    [delete] of the entry built for [A] raises [AttributeError] before any
    command, so the run leaves the server as it found it.  After three
    such runs [A] is still tracked, stored and indexed, and [C] is neither
    stored nor tracked. *)
Theorem stale_name_is_never_deleted :
  outcome (RedBeatScheduler.setup_schedule scheduler_ab)
    (empty_world new_year) = inr tt
  ∧ members "redbeat::statics" reconciled_ab = {[ "A"; "B" ]}
  ∧ stored "redbeat:A" "definition" reconciled_ab
    = Some (dumps (definition_of (static_entry "A")))
  ∧ indexed "redbeat::schedule" "redbeat:A" reconciled_ab = Some 1420070460
  ∧ stored "redbeat:C" "definition" reconciled_ab = None
  ∧ RedBeatScheduler.removed scheduler_bc
      (members "redbeat::statics" reconciled_ab) = {[ "A" ]}
  ∧ RedBeatScheduler.setup_schedule scheduler_bc reconciled_ab
    = (reconciled_ab, inl (AttributeError "conf"))
  ∧ RedBeatScheduler.setup_schedule scheduler_bc
      (reconcile_all [scheduler_bc; scheduler_bc] reconciled_ab)
    = (reconciled_ab, inl (AttributeError "conf"))
  ∧ reconcile_all [scheduler_bc; scheduler_bc; scheduler_bc] reconciled_ab
    = reconciled_ab.
Proof.
  assert (Hr : RedBeatScheduler.removed scheduler_bc
                 (members "redbeat::statics" reconciled_ab) = {[ "A" ]}).
  { apply (bool_decide_unpack _). vm_compute. exact I. }
  assert (Hrun : RedBeatScheduler.setup_schedule scheduler_bc reconciled_ab
                 = (reconciled_ab, inl (AttributeError "conf"))).
  { apply setup_schedule_stale_raises.
    change (RedBeatScheduler.removed scheduler_bc
              (members "redbeat::statics" reconciled_ab) ≠ ∅).
    rewrite Hr. apply (bool_decide_unpack _). vm_compute. exact I. }
  assert (Hsame : exec (RedBeatScheduler.setup_schedule scheduler_bc)
                    reconciled_ab = reconciled_ab).
  { unfold exec. rewrite Hrun. reflexivity. }
  split; [vm_compute; reflexivity | ].
  split; [apply (bool_decide_unpack _); vm_compute; exact I | ].
  split; [vm_compute; reflexivity | ].
  split; [vm_compute; reflexivity | ].
  split; [vm_compute; reflexivity | ].
  split; [exact Hr | ]. split; [exact Hrun | ].
  unfold reconcile_all. cbn [foldl]. rewrite !Hsame.
  split; [exact Hrun | reflexivity].
Qed.

(** A server whose index names a key without a definition beside the key
    of the saved [entry_x]. *)
Definition with_dangling_key : world :=
  exec (Redis.zadd "redbeat::schedule" 1420070000 "redbeat:gone") saved_x.

Lemma schedule_heals_index_witness :
  outcome (RedBeatScheduler.due_tasks scheduler0) with_dangling_key
  = inr ["redbeat:gone"; "redbeat:x"]
  ∧ ∃ w' d,
      RedBeatScheduler.schedule scheduler0 with_dangling_key = (w', inr d)
      ∧ indexed "redbeat::schedule" "redbeat:gone" w' = None
      ∧ indexed "redbeat::schedule" "redbeat:x" w' = Some 1420070400
      ∧ ∃ entry, d !! PStr "x" = Some entry ∧ name entry = PStr "x".
Proof.
  assert (Hdue : outcome (RedBeatScheduler.due_tasks scheduler0)
                   with_dangling_key
                 = inr ["redbeat:gone"; "redbeat:x"]).
  { vm_compute. reflexivity. }
  split; [exact Hdue | ].
  assert (Hkeys : ∀ key, key ∈ ["redbeat:gone"; "redbeat:x"] →
                    dangling key with_dangling_key = true
                    ∨ well_kept (R:=interval) key with_dangling_key).
  { intros key Hkey. apply elem_of_cons in Hkey as [-> | Hkey].
    { left. vm_compute. reflexivity. }
    apply list_elem_of_singleton in Hkey as ->. right.
    exists entry_x, {[ "last_run_at" := PDatetime datetime_min ]}.
    split; [vm_compute; reflexivity | ].
    split; [vm_compute; reflexivity | ].
    split; [ | reflexivity].
    apply (bool_decide_unpack _). vm_compute. exact I. }
  destruct (proj2 (schedule_heals_index scheduler0 with_dangling_key)
              ["redbeat:gone"; "redbeat:x"] Hdue Hkeys)
    as (w' & d & Hrun & _ & _ & Hidx & Hin & _).
  clear Hkeys.
  exists w', d. split; [exact Hrun | ].
  split; [rewrite Hidx; vm_compute; reflexivity | ].
  split; [rewrite Hidx; vm_compute; reflexivity | ].
  clear Hidx.
  destruct (Hin "redbeat:x") as (entry & entry' & Hl & Hd & Hn & _).
  { apply (bool_decide_unpack _). vm_compute. exact I. }
  { vm_compute. reflexivity. }
  clear Hin.
  assert (Hx : ∃ e : RedBeatSchedulerEntry.t (R:=interval),
                 loaded with_dangling_key "redbeat:x" = Some e
                 ∧ name e = PStr "x").
  { eexists. split; [vm_compute; reflexivity | reflexivity]. }
  destruct Hx as (e & He & Hx). rewrite He in Hl. injection Hl as <-.
  exists entry'. rewrite Hx in Hd. rewrite Hx in Hn. exact (conj Hd Hn).
Defined.

(** A server whose index names, in score order, a key whose definition
    field holds bytes that are no encoded record and a key without a
    definition. *)
Definition with_undecodable_definition : world :=
  World {[ "redbeat:bad" := {[ "definition" := "{" ]} ]}
    {[ "redbeat::schedule" :=
         {[ "redbeat:bad" := 1420070000; "redbeat:gone" := 1420070100 ]} ]}
    ∅ ∅ ∅ new_year.

(** C5, the claim fails: both keys are due and the second has no
    definition; [schedule] raises [ValueError] at the first, which its
    handler of [KeyError] does not catch, and the key without a definition
    is still in the index. *)
Lemma schedule_lets_decode_error_out :
  outcome (RedBeatScheduler.due_tasks scheduler0) with_undecodable_definition
  = inr ["redbeat:bad"; "redbeat:gone"]
  ∧ stored "redbeat:gone" "definition" with_undecodable_definition = None
  ∧ outcome (RedBeatScheduler.schedule scheduler0)
      with_undecodable_definition
    = inl ValueError
  ∧ indexed "redbeat::schedule" "redbeat:gone"
      (exec (RedBeatScheduler.schedule scheduler0)
         with_undecodable_definition)
    = Some 1420070100.
Proof.
  split; [vm_compute; reflexivity | ].
  split; [vm_compute; reflexivity | ].
  split; vm_compute; reflexivity.
Qed.

Lemma load_meta_default_or_decoded_witness :
  outcome (load_meta (R:=interval) "redbeat:x") saved_x
  = inr {[ "last_run_at" := PDatetime datetime_min ]}
  ∧ outcome (load_meta (R:=interval) "redbeat:x") fired_x
    = inr {[ "last_run_at" := PDatetime minute_later;
             "total_run_count" := PInt 4 ]}.
Proof.
  split.
  - apply (proj1 (proj2 (load_meta_default_or_decoded "redbeat:x" saved_x))).
    left. vm_compute. reflexivity.
  - apply (proj1 (proj2 (proj2
             (load_meta_default_or_decoded "redbeat:x" fired_x)))
             (dumps ({[ "last_run_at" := PDatetime minute_later;
                        "total_run_count" := PInt 4 ]} : pydict interval))).
    + vm_compute. reflexivity.
    + apply dumps_nonempty.
    + apply loads_dumps.
Defined.

(** A scheduler that holds the lock, and a server on which the lock key
    exists with a second left to live. *)
Definition leader : RedBeatScheduler.t :=
  RedBeatScheduler.Scheduler app0 (Some "token") "redbeat::lock" 1500 300 ∅.

Definition locked : world :=
  World ∅ ∅ ∅ {[ "redbeat::lock" := "token" ]} {[ "redbeat::lock" := 1000 ]}
    new_year.

Lemma tick_extends_lock_first_witness :
  ttl (exec (RedBeatScheduler.tick RedBeatScheduler.schedule leader) locked)
    !! "redbeat::lock"
  = Some 1500000
  ∧ RedBeatScheduler.tick RedBeatScheduler.schedule scheduler0 locked
    = RedBeatScheduler.schedule scheduler0 locked.
Proof.
  split.
  - destruct (proj1 (tick_extends_lock_first RedBeatScheduler.schedule
                       leader locked) "token" eq_refl) as (Htick & _).
    unfold exec. rewrite Htick. vm_compute. reflexivity.
  - exact (proj2 (tick_extends_lock_first RedBeatScheduler.schedule
                    scheduler0 locked) eq_refl).
Defined.

(** ** Further scenarios *)

Lemma save_writes_definition_and_score_witness :
  stored "redbeat:x" "definition" saved_x
  = Some (dumps (definition_of entry_x))
  ∧ indexed "redbeat::schedule" "redbeat:x" saved_x = Some 1420070400.
Proof.
  destruct (save_writes_definition_and_score entry_x
              (empty_world minute_later) app0 "redbeat:x" new_year)
    as (_ & Hd & Hi & _).
  - reflexivity.
  - reflexivity.
  - vm_compute. reflexivity.
  - exact (conj Hd Hi).
Defined.

Lemma reschedule_writes_meta_and_score_witness :
  indexed "redbeat::schedule" "redbeat:x"
    (exec (reschedule entry_x PNone) saved_x)
  = Some 1420070520
  ∧ stored "redbeat:x" "definition" (exec (reschedule entry_x PNone) saved_x)
    = stored "redbeat:x" "definition" saved_x.
Proof.
  destruct (reschedule_writes_meta_and_score entry_x PNone saved_x app0
              "redbeat:x" (minute_later + 60 * 1000000))
    as (_ & _ & _ & Hi & Hf & _).
  - reflexivity.
  - reflexivity.
  - vm_compute. reflexivity.
  - split; [exact Hi | ]. apply Hf. intros [=].
Defined.

Lemma next_persists_run_witness :
  outcome (next entry_x PNone) saved_x
  = inl (NameError "REDBEAT_SCHEDULE_KEY")
  ∧ outcome (from_key (R:=interval) "redbeat:x") fired_x
    = inr (Entry (PStr "x") (PStr "t") (PRule (Every 60)) (PList [])
             (PDict []) (PDict []) (PBool true) (PDatetime minute_later)
             (PInt 4) None).
Proof.
  destruct (next_persists_run entry_x PNone saved_x "redbeat:x" 3 entry_x)
    as (Hn & _ & Hl).
  - reflexivity.
  - reflexivity.
  - vm_compute. reflexivity.
  - exact (conj Hn Hl).
Defined.

(** The entry that [from_key] loads once [entry_x] is saved. *)
Definition loaded_x : RedBeatSchedulerEntry.t :=
  Entry (PStr "x") (PStr "t") (PRule (Every 60)) (PList []) (PDict [])
    (PDict []) (PBool true) (PDatetime datetime_min) (PInt 0) None.

Lemma loaded_entry_cannot_be_written_witness :
  delete loaded_x saved_x = (saved_x, inl (AttributeError "conf"))
  ∧ outcome (save loaded_x) saved_x = inl (AttributeError "conf")
  ∧ outcome (reschedule loaded_x PNone) saved_x
    = inl (AttributeError "conf").
Proof.
  destruct (loaded_entry_cannot_be_written "redbeat:x" saved_x loaded_x
              PNone saved_x)
    as (Hd & _ & _ & _ & _ & Hk).
  - vm_compute. reflexivity.
  - destruct (Hk "redbeat:x" eq_refl) as (Hs & _ & Hr & _).
    exact (conj Hd (conj Hs Hr)).
Defined.

Lemma delete_removes_entry_witness :
  outcome (delete entry_x) saved_x = inr tt
  ∧ stored "redbeat:x" "definition" (exec (delete entry_x) saved_x) = None
  ∧ indexed "redbeat::schedule" "redbeat:x" (exec (delete entry_x) saved_x)
    = None.
Proof.
  destruct (delete_removes_entry entry_x saved_x app0 "redbeat:x")
    as (Ho & Hs & Hi & _).
  - reflexivity.
  - reflexivity.
  - exact (conj Ho (conj (Hs "definition") Hi)).
Defined.

(** Every entry of the configuration of [scheduler_bc] is [job], which
    has a score at any reading of the clock in range. *)
Lemma scheduler_bc_scorable :
  all_scorable scheduler_bc new_year {[ "B" := job; "C" := job ]}.
Proof.
  intros name entry Hl _.
  assert (He : entry = job).
  { apply lookup_insert_Some in Hl as [[_ <-] | [_ Hl]]; [done | ].
    by apply lookup_singleton_Some in Hl as [_ <-]. }
  subst entry. exists 1420070460. vm_compute. reflexivity.
Qed.

Lemma update_from_dict_installs_witness :
  outcome (RedBeatScheduler.update_from_dict scheduler_bc
             {[ "B" := job; "C" := job ]}) (empty_world new_year)
  = inr tt
  ∧ indexed "redbeat::schedule" "redbeat:C"
      (exec (RedBeatScheduler.update_from_dict scheduler_bc
               {[ "B" := job; "C" := job ]}) (empty_world new_year))
    = Some 1420070460.
Proof.
  destruct (update_from_dict_installs scheduler_bc
              {[ "B" := job; "C" := job ]} (empty_world new_year))
    as (Ho & Hin & _).
  - exact scheduler_bc_scorable.
  - split; [exact Ho | ].
    destruct (Hin "C" job) as [_ Hi].
    + vm_compute. reflexivity.
    + apply (bool_decide_unpack _). vm_compute. exact I.
    + refine (eq_trans Hi _). vm_compute. reflexivity.
Defined.

(** A server on which [B] is saved, indexed and tracked as static. *)
Definition tracking_b : world :=
  exec (Redis.sadd "redbeat::statics" ["B"])
    (exec (save (static_entry "B")) (empty_world new_year)).

Lemma tracking_b_nothing_stale : nothing_stale scheduler_bc tracking_b.
Proof.
  unfold nothing_stale. apply (bool_decide_unpack _). vm_compute. exact I.
Qed.

Lemma scheduler_bc_no_defaults :
  all_scorable scheduler_bc new_year
    (RedBeatScheduler.default_entries scheduler_bc).
Proof.
  intros name entry Hl. exfalso.
  change (RedBeatScheduler.default_entries scheduler_bc)
    with (∅ : gmap string (pydict interval)) in Hl.
  by rewrite lookup_empty in Hl.
Qed.

Lemma setup_schedule_installs_configuration_witness :
  outcome (RedBeatScheduler.setup_schedule scheduler_bc) tracking_b = inr tt
  ∧ members "redbeat::statics"
      (exec (RedBeatScheduler.setup_schedule scheduler_bc) tracking_b)
    = dom (CELERYBEAT_SCHEDULE (conf (RedBeatScheduler.app scheduler_bc)))
  ∧ indexed "redbeat::schedule" "redbeat:C"
      (exec (RedBeatScheduler.setup_schedule scheduler_bc) tracking_b)
    = Some 1420070460.
Proof.
  destruct (setup_schedule_installs_configuration scheduler_bc tracking_b)
    as (Ho & Hm & _ & Hin & _).
  - exact tracking_b_nothing_stale.
  - exact scheduler_bc_no_defaults.
  - exact scheduler_bc_scorable.
  - split; [exact Ho | ]. split; [exact Hm | ].
    destruct (Hin "C" job) as [_ Hi].
    + vm_compute. reflexivity.
    + apply (bool_decide_unpack _). vm_compute. exact I.
    + refine (eq_trans Hi _). vm_compute. reflexivity.
Defined.

Lemma setup_schedule_twice_is_once_witness :
  outcome (RedBeatScheduler.setup_schedule scheduler_bc)
    (exec (RedBeatScheduler.setup_schedule scheduler_bc) tracking_b)
  = inr tt
  ∧ ∀ index member,
      indexed index member
        (exec (RedBeatScheduler.setup_schedule scheduler_bc)
           (exec (RedBeatScheduler.setup_schedule scheduler_bc) tracking_b))
      = indexed index member
          (exec (RedBeatScheduler.setup_schedule scheduler_bc) tracking_b).
Proof.
  destruct (setup_schedule_twice_is_once scheduler_bc tracking_b)
    as (Ho & _ & Hi & _).
  - exact tracking_b_nothing_stale.
  - exact scheduler_bc_no_defaults.
  - exact scheduler_bc_scorable.
  - exact (conj Ho Hi).
Defined.

(** An entry without a schedule. *)
Definition unscheduled : RedBeatSchedulerEntry.t :=
  Entry (PStr "y") (PStr "t") PNone (PList []) (PDict []) (PDict [])
    (PBool true) (PDatetime new_year) (PInt 0) (Some app0).

Lemma save_without_score_stores_unindexed_witness :
  outcome (save unscheduled) (empty_world new_year)
  = inl (AttributeError "remaining_estimate")
  ∧ stored "redbeat:y" "definition"
      (exec (save unscheduled) (empty_world new_year))
    = Some (dumps (definition_of unscheduled))
  ∧ zsets (exec (save unscheduled) (empty_world new_year)) = ∅.
Proof.
  destruct (save_without_score_stores_unindexed unscheduled
              (empty_world new_year) app0 "redbeat:y"
              (AttributeError "remaining_estimate"))
    as (Ho & Hs & Hz).
  - reflexivity.
  - reflexivity.
  - reflexivity.
  - exact (conj Ho (conj Hs Hz)).
Defined.

(** A configured entry with a task and no schedule. *)
Definition idle_job : pydict interval := {[ "task" := PStr "t" ]}.

(** A scheduler whose configuration has [D], bound to [idle_job]. *)
Definition scheduler_d : RedBeatScheduler.t :=
  RedBeatScheduler.Scheduler
    {| conf := {| REDBEAT_KEY_PREFIX := "redbeat:";
                  REDBEAT_SCHEDULE_KEY := "redbeat::schedule";
                  REDBEAT_STATICS_KEY := "redbeat::statics";
                  REDBEAT_LOCK_KEY := "redbeat::lock";
                  REDBEAT_LOCK_TIMEOUT := 1500;
                  CELERYBEAT_SCHEDULE := {[ "D" := idle_job ]};
                  CELERYBEAT_MAX_LOOP_INTERVAL := 300 |} |}
    None "redbeat::lock" 1500 300 ∅.

Lemma update_from_dict_lets_save_errors_out_witness :
  (∃ x, outcome (RedBeatScheduler.update_from_dict scheduler_d
                   {[ "D" := idle_job ]})
          (empty_world new_year) = inl x)
  ∧ ∃ x, outcome (RedBeatScheduler.setup_schedule scheduler_d)
           (empty_world new_year) = inl x.
Proof.
  destruct (update_from_dict_lets_save_errors_out scheduler_d
              {[ "D" := idle_job ]} (empty_world new_year)
              "D" idle_job)
    as [Hu Hs].
  - vm_compute. reflexivity.
  - apply (bool_decide_unpack _). vm_compute. exact I.
  - vm_compute. reflexivity.
  - exact (conj Hu (Hs eq_refl)).
Defined.

Lemma saved_entry_is_scheduled_witness :
  outcome (RedBeatScheduler.schedule scheduler0) saved_x
  = inr {[ PStr "x" := loaded_x ]}.
Proof.
  destruct (saved_entry_is_scheduled scheduler0 entry_x
              (empty_world minute_later) "redbeat:x" 1420070400
              {[ "last_run_at" := PDatetime datetime_min ]}
              (minute_later + 300 * 1000000))
    as (Ho & _).
  - reflexivity.
  - reflexivity.
  - vm_compute. reflexivity.
  - reflexivity.
  - apply (bool_decide_unpack _). vm_compute. exact I.
  - vm_compute. reflexivity.
  - split; apply Z.leb_le; vm_compute; reflexivity.
  - intros key' s' Hi. discriminate Hi.
  - exact Ho.
Defined.
